(** * gazr: head pose estimation (src/head_pose_estimation.cpp)

    A shallow embedding of [HeadPoseEstimation] and the properties its
    specification states about it.

    - C++ [float] and [double] are IEEE-754 binary32 and binary64 values,
      modelled with the Standard Library's [spec_float] and its
      round-to-nearest-even operations (every operation rounds to its own
      format; no fused multiply-add, no excess precision).
    - A call returns normally, throws, or has undefined behaviour
      ([outcome]); unchecked [std::vector] indexing out of range is
      undefined behaviour.
    - [cv::Mat] is a header over a shared pixel buffer: images live in a
      store of buffers and drawing writes to the buffer of its target.
    - OpenCV and dlib routines whose code is not part of the repository
      (the detector, the landmark predictor, [solvePnP], [Rodrigues],
      [projectPoints], [saturate_cast<int>]) and the constants of the
      header are fields of the class [Collaborators]. *)

From Stdlib Require Import ZArith QArith Lia Floats.SpecFloat.
From stdpp Require Import base list gmap strings pretty.

Local Open Scope Z_scope.

(** * Part I: the model *)

(** ** IEEE-754 arithmetic *)

Definition float32 := spec_float.
Definition float64 := spec_float.

Module F32.
Definition prec : Z := 24.
Definition emax : Z := 128.
Definition add : float32 → float32 → float32 := SFadd prec emax.
Definition sub : float32 → float32 → float32 := SFsub prec emax.
Definition mul : float32 → float32 → float32 := SFmul prec emax.
Definition div : float32 → float32 → float32 := SFdiv prec emax.
Definition abs : float32 → float32 := SFabs.
Definition eqb : float32 → float32 → bool := SFeqb.
(** [(float)n] for an integer [n]. *)
Definition of_Z (n : Z) : float32 := binary_normalize prec emax n 0 false.
(** [(float)d] for a double [d]: rounds to nearest, overflows to infinity. *)
Definition of_F64 (d : float64) : float32 :=
  match d with
  | S754_finite s m e => binary_round prec emax s m e
  | _ => d
  end.
End F32.

Module F64.
Definition prec : Z := 53.
Definition emax : Z := 1024.
Definition mul : float64 → float64 → float64 := SFmul prec emax.
Definition div : float64 → float64 → float64 := SFdiv prec emax.
Definition opp : float64 → float64 := SFopp.
Definition ltb : float64 → float64 → bool := SFltb.
Definition of_Z (n : Z) : float64 := binary_normalize prec emax n 0 false.
(** [(double)f] for a float [f]: exact, the mantissa is re-aligned. *)
Definition of_F32 (f : float32) : float64 :=
  match f with
  | S754_finite s m e => binary_round prec emax s m e
  | _ => f
  end.
(** The literals of the source: each is the double nearest to the decimal,
    which the correctly rounded quotient of two exact integers gives. *)
Definition lit_0_5 : float64 := div (of_Z 1) (of_Z 2).
Definition lit_1_2 : float64 := div (of_Z 12) (of_Z 10).
Definition lit_1e_8 : float64 := div (of_Z 1) (of_Z 100000000).
End F64.

(** The rational value of a finite float; [None] for NaN and infinities. *)
Definition F2Q (f : spec_float) : option Q :=
  match f with
  | S754_zero _ => Some 0%Q
  | S754_finite s m e =>
      let n := if s then Z.neg m else Z.pos m in
      Some (match e with
            | Z0 => inject_Z n
            | Z.pos p => inject_Z (n * Z.pow_pos 2 p)
            | Z.neg p => Qmake n (Pos.pow 2 p)
            end)
  | _ => None
  end.

(** ** Floats that are exact

    The definitions the exactness lemmas are stated with: the floats of the
    integers and half-integers a format holds without rounding. *)

(** [m * 2^k] on positive numbers. *)
Definition shl (k : nat) (m : positive) : positive := Nat.iter k xO m.

(** The pair [(m, e)] is a float of the format [(prec, emax)]. *)
Definition is_canonical (prec emax : Z) (m : positive) (e : Z) : Prop :=
  fexp prec emax (Z.pos (digits2_pos m) + e) = e ∧ e ≤ emax - prec.

(** The zero bits to append to [c] to fill the [prec] bits of a mantissa. *)
Definition spare (prec : Z) (c : positive) : nat :=
  Z.to_nat (prec - Z.pos (digits2_pos c)).

(** The float of sign [s] and magnitude [c * 2^j]. *)
Definition dyadic (prec : Z) (s : bool) (c : positive) (j : Z) : spec_float :=
  S754_finite s (shl (spare prec c) c) (j - Z.of_nat (spare prec c)).

(** [c * 2^j] is held exactly: [c] has at most [prec] bits and the exponent
    is in range. *)
Definition fits (prec emax : Z) (c : positive) (j : Z) : Prop :=
  Z.pos (digits2_pos c) ≤ prec
  ∧ emin prec emax ≤ Z.pos (digits2_pos c) + j - prec ≤ emax - prec.

(** The float of [z * 2^j]. *)
Definition scaled (prec : Z) (z : Z) (j : Z) : spec_float :=
  match z with
  | Z0 => S754_zero false
  | Z.pos c => dyadic prec false c j
  | Z.neg c => dyadic prec true c j
  end.

(** ** Points *)

(** [cv::Point2f]. *)
Record Point2f := mkPoint2f { x2f : float32; y2f : float32 }.
(** [cv::Point3f]. *)
Record Point3f := mkPoint3f { x3f : float32; y3f : float32; z3f : float32 }.
(** [cv::Point], with [int] coordinates. *)
Record Point := mkPoint { xi : Z; yi : Z }.
(** [dlib::point], with [long] coordinates. *)
Record dpoint := mkDpoint { dx : Z; dy : Z }.

#[export] Instance spec_float_eq_dec : EqDecision spec_float.
Proof. solve_decision. Defined.
#[export] Instance Point2f_eq_dec : EqDecision Point2f.
Proof. solve_decision. Defined.

(** OpenCV's [Point_<float>] operators: [a + b], [a - b] and [a * s] for a
    double [s], each coordinate through [saturate_cast<float>]. *)
Definition Point2f_add (a b : Point2f) : Point2f :=
  mkPoint2f (F32.add (x2f a) (x2f b)) (F32.add (y2f a) (y2f b)).
Definition Point2f_sub (a b : Point2f) : Point2f :=
  mkPoint2f (F32.sub (x2f a) (x2f b)) (F32.sub (y2f a) (y2f b)).
Definition Point2f_scale (a : Point2f) (s : float64) : Point2f :=
  mkPoint2f (F32.of_F64 (F64.mul (F64.of_F32 (x2f a)) s))
            (F32.of_F64 (F64.mul (F64.of_F32 (y2f a)) s)).

(** The conversion [Point] to [Point2f] of a return statement. *)
Definition Point2f_of_Point (p : Point) : Point2f :=
  mkPoint2f (F32.of_Z (xi p)) (F32.of_Z (yi p)).

(** The coordinate-wise average [(a + b) * 0.5] of two points. *)
Definition midpoint2f (a b : Point2f) : Point2f :=
  Point2f_scale (Point2f_add a b) F64.lit_0_5.

(** ** The line intersection helper *)

(** [float cross = d1.x*d2.y - d1.y*d2.x]. *)
Definition cross2f (a b : Point2f) : float32 :=
  F32.sub (F32.mul (x2f a) (y2f b)) (F32.mul (y2f a) (x2f b)).

(** [HeadPoseEstimation::intersection]: the returned flag and the value of
    the reference parameter [r] after the call. *)
Definition intersection (o1 p1 o2 p2 : Point2f) (r : Point2f) : bool * Point2f :=
  let x := Point2f_sub o2 o1 in
  let d1 := Point2f_sub p1 o1 in
  let d2 := Point2f_sub p2 o2 in
  let cross := cross2f d1 d2 in
  if F64.ltb (F64.of_F32 (F32.abs cross)) F64.lit_1e_8 then (false, r)
  else
    let t1 := F64.of_F32 (F32.div (cross2f x d2) cross) in
    (true, Point2f_add o1 (Point2f_scale d1 t1)).

(** The rational coordinates of a point whose two floats are finite. *)
Definition value2 (p : Point2f) : option (Q * Q) :=
  match F2Q (x2f p), F2Q (y2f p) with
  | Some a, Some b => Some (a, b)
  | _, _ => None
  end.






(** ** Outcomes of a call *)

Inductive ub :=
  | OutOfBounds           (* unchecked index past the end of a vector *)
  | DanglingBuffer        (* a Mat header whose pixel buffer is not allocated *)
  | FloatToIntOverflow.   (* double to int conversion of an unrepresentable value *)

Inductive exn :=
  | IndexError.           (* std::out_of_range, what a checked access throws *)

Inductive outcome (A : Type) :=
  | Ret (a : A)
  | Throw (e : exn)
  | UB (u : ub).
Arguments Ret {A} a.
Arguments Throw {A} e.
Arguments UB {A} u.

#[export] Instance outcome_ret : MRet outcome := @Ret.
#[export] Instance outcome_bind : MBind outcome := λ A B f m,
  match m with
  | Ret a => f a
  | Throw e => Throw e
  | UB u => UB u
  end.
#[export] Instance outcome_fmap : FMap outcome := λ A B f m,
  match m with
  | Ret a => Ret (f a)
  | Throw e => Throw e
  | UB u => UB u
  end.

(** [v[i]] on a [std::vector]: no bounds check. *)
Definition vec_at {A} (v : list A) (i : nat) : outcome A :=
  match v !! i with
  | Some a => Ret a
  | None => UB OutOfBounds
  end.

(** ** Matrices and vectors *)

(** [cv::Matx]: the entries in row-major order. *)
Definition Matx := list spec_float.
Definition mat_at (ncols : nat) (m : Matx) (r c : nat) : spec_float :=
  nth (r * ncols + c) m (S754_zero false).
Definition mat_set (ncols : nat) (r c : nat) (v : spec_float) (m : Matx) : Matx :=
  <[(r * ncols + c)%nat := v]> m.
Definition mat_zeros (nrows ncols : nat) : Matx := replicate (nrows * ncols) (S754_zero false).

(** A 3x1 [Mat_<double>]. *)
Record Vec3d := mkVec3d { v0 : float64; v1 : float64; v2 : float64 }.
Definition vec3_at (v : Vec3d) (k : nat) : float64 :=
  match k with
  | O => v0 v
  | S O => v1 v
  | _ => v2 v
  end.

(** Modelled from the spec: [head_pose] is defined in the missing header; a
    4x4 matrix, which the source fills with sixteen doubles and passes to
    [cv::Mat]: a [cv::Matx44d]. *)
Definition head_pose := Matx.

(** ** dlib and OpenCV data *)

Record rectangle := mkRect { r_left : Z; r_top : Z; r_right : Z; r_bottom : Z }.

(** [dlib::full_object_detection]: the landmarks of one face. *)
Record full_object_detection := mkShape { shape_rect : rectangle; parts : list dpoint }.

(** [d.part(i)]: dlib indexes its vector of parts without a check. *)
Definition part (d : full_object_detection) (i : nat) : outcome dpoint := vec_at (parts d) i.

(** The narrowing [long] to [int] of [Point(p.x(), p.y())]. *)
Definition wrap_int (z : Z) : Z := (z + 2 ^ 31) mod 2 ^ 32 - 2 ^ 31.

Definition toCv (p : dpoint) : Point := mkPoint (wrap_int (dx p)) (wrap_int (dy p)).

Record Scalar := mkScalar { sc0 : Z; sc1 : Z; sc2 : Z }.

(** What [cv::line] and [cv::putText] are asked to paint. *)
Inductive draw_cmd :=
  | DLine (p q : Point) (color : Scalar) (thickness : Z)           (* lineType CV_AA *)
  | DText (text : string) (org : Point) (fontScale : float64)
          (color : Scalar) (thickness : Z).                          (* FONT_HERSHEY_SIMPLEX *)

(** A pixel buffer: the bytes it was created with and what has been painted
    over them since, oldest first. *)
Record canvas := mkCanvas { pixels : list Z; drawn : list draw_cmd }.

(** [cv::Mat]: a header sharing the buffer at address [data]. *)
Record Mat := mkMat { cols : Z; rows : Z; data : nat }.

Abbreviation store := (gmap nat canvas).

Definition buf_at (σ : store) (l : nat) : outcome canvas :=
  match σ !! l with
  | Some c => Ret c
  | None => UB DanglingBuffer
  end.

(** [m.clone()]: a new buffer with a copy of the pixels. *)
Definition Mat_clone (σ : store) (m : Mat) : outcome (store * Mat) :=
  c ← buf_at σ (data m);
  let l := fresh (dom σ) in
  Ret (<[l := c]> σ, mkMat (cols m) (rows m) l).

(** A drawing primitive applied to the buffer of [m]. *)
Definition paint (m : Mat) (cmd : draw_cmd) (σ : store) : outcome store :=
  c ← buf_at σ (data m);
  Ret (<[data m := mkCanvas (pixels c) (drawn c ++ [cmd])]> σ).

(** The image as dlib sees it through [cv_image<bgr_pixel>]. *)
Record cv_image := mkView { nc : Z; nr : Z; view : canvas }.

(** The enumerators of [FACIAL_FEATURE] the source names; the enumeration
    is in the missing header, its values are a field of [Collaborators]. *)
Inductive FACIAL_FEATURE :=
  | NOSE | RIGHT_EYE | LEFT_EYE | RIGHT_SIDE | LEFT_SIDE | SELLION
  | MOUTH_CENTER_TOP | MOUTH_CENTER_BOTTOM | MENTON.

Inductive solve_method := ITERATIVE.

(** The arguments of one [solvePnP] call ([distCoeffs] is [noArray()]). *)
Record solve_call := mkCall {
  objectPoints : list Point3f;
  imagePoints : list Point2f;
  cameraMatrix : Matx;
  rvec_in : Vec3d;
  tvec_in : Vec3d;
  useExtrinsicGuess : bool;
  flags : solve_method }.

(** Code outside the repository, and the constants of the header
    head_pose_estimation.hpp, which the source only uses. *)
Class Collaborators := {
  (** [dlib::frontal_face_detector] *)
  detector : cv_image → list rectangle;
  (** [dlib::shape_predictor], loaded by the constructor *)
  pose_model : cv_image → rectangle → full_object_detection;
  (** [cv::solvePnP]: [rvec] and [tvec] after the call *)
  solvePnP : solve_call → Vec3d * Vec3d;
  (** [cv::Rodrigues], rotation vector to 3x3 matrix *)
  Rodrigues : Vec3d → Matx;
  (** [cv::Rodrigues], 3x3 matrix to rotation vector *)
  Rodrigues_inv : Matx → Vec3d;
  (** [cv::projectPoints] without distortion *)
  projectPoints : list Point3f → Vec3d → Vec3d → Matx → list Point2f;
  (** [cv::saturate_cast<int>(float)], used when a [Point2f] is passed as a [Point] *)
  saturate_cast_int : float32 → Z;
  (** the value of each enumerator: its index among the 68 landmarks *)
  feature_index : FACIAL_FEATURE → nat;
  P3D_SELLION : Point3f;
  P3D_RIGHT_EYE : Point3f;
  P3D_LEFT_EYE : Point3f;
  P3D_RIGHT_EAR : Point3f;
  P3D_LEFT_EAR : Point3f;
  P3D_MENTON : Point3f;
  P3D_NOSE : Point3f;
  P3D_STOMMION : Point3f }.

(** ** The estimator *)

(** Modelled from the spec: the class is declared in the header
    head_pose_estimation.hpp, which is not among the sources. The members
    are those the source reads and assigns; the camera model is three
    floats ([CameraModel] of the spec), [faces] and [shapes] are the vectors
    [update] fills. *)
Record HeadPoseEstimation := mkHPE {
  focalLength : float32;
  opticalCenterX : float32;
  opticalCenterY : float32;
  current_image : option Mat;
  faces : list rectangle;
  shapes : list full_object_detection }.

(** The constructor (the two models it loads are in [Collaborators]). *)
Definition HeadPoseEstimation_new (focal : float32) : HeadPoseEstimation :=
  mkHPE focal (F32.of_Z (-1)) (F32.of_Z (-1)) None [] [].

Section Estimator.
Context `{Collaborators}.

(** [HeadPoseEstimation::update]: the estimator after the call and the
    returned landmark lists. *)
Definition update (st : HeadPoseEstimation) (σ : store) (image : Mat)
    : outcome (HeadPoseEstimation * list (list Point)) :=
  let '(cx, cy) :=
    if F32.eqb (opticalCenterX st) (F32.of_Z (-1))
    then (F32.of_Z (cols image ÷ 2), F32.of_Z (rows image ÷ 2))
    else (opticalCenterX st, opticalCenterY st) in
  c ← buf_at σ (data image);
  let current := mkView (cols image) (rows image) c in
  let fs := detector current in
  let shs := pose_model current <$> fs in
  all_features ← mapM (λ d, mapM (λ i, toCv <$> part d i) (seq 0 68)) shs;
  Ret (mkHPE (focalLength st) cx cy (Some image) fs shs, all_features).

(** [HeadPoseEstimation::coordsOf]. *)
Definition coordsOf (st : HeadPoseEstimation) (face_idx : nat) (feature : FACIAL_FEATURE)
    : outcome Point2f :=
  d ← vec_at (shapes st) face_idx;
  p ← part d (feature_index feature);
  Ret (Point2f_of_Point (toCv p)).

(** The intrinsic matrix [[f 0 cx] [0 f cy] [0 0 1]] as [pose] fills it in. *)
Definition projection_of (st : HeadPoseEstimation) : Matx :=
  mat_set 3 2 2 (F32.of_Z 1)
    (mat_set 3 1 2 (opticalCenterY st)
      (mat_set 3 0 2 (opticalCenterX st)
        (mat_set 3 1 1 (focalLength st)
          (mat_set 3 0 0 (focalLength st) (mat_zeros 3 3))))).

Definition head_points : list Point3f :=
  [P3D_SELLION; P3D_RIGHT_EYE; P3D_LEFT_EYE; P3D_RIGHT_EAR; P3D_LEFT_EAR;
   P3D_MENTON; P3D_NOSE; P3D_STOMMION].

(** The initial guess: [tvec = (0, 0, 1000)], [rvec = (1.2, 1.2, -1.2)]. *)
Definition tvec0 : Vec3d := mkVec3d (F64.of_Z 0) (F64.of_Z 0) (F64.of_Z 1000).
Definition rvec0 : Vec3d := mkVec3d F64.lit_1_2 F64.lit_1_2 (F64.opp F64.lit_1_2).

(** [pose] up to its call of [solvePnP]: the arguments it passes. *)
Definition pose_solve_call (st : HeadPoseEstimation) (face_idx : nat) : outcome solve_call :=
  let projection := projection_of st in
  sellion ← coordsOf st face_idx SELLION;
  right_eye ← coordsOf st face_idx RIGHT_EYE;
  left_eye ← coordsOf st face_idx LEFT_EYE;
  right_side ← coordsOf st face_idx RIGHT_SIDE;
  left_side ← coordsOf st face_idx LEFT_SIDE;
  menton ← coordsOf st face_idx MENTON;
  nose ← coordsOf st face_idx NOSE;
  top ← coordsOf st face_idx MOUTH_CENTER_TOP;
  bottom ← coordsOf st face_idx MOUTH_CENTER_BOTTOM;
  let stomion := Point2f_scale (Point2f_add top bottom) F64.lit_0_5 in
  let detected_points :=
    [sellion; right_eye; left_eye; right_side; left_side; menton; nose; stomion] in
  Ret (mkCall head_points detected_points projection rvec0 tvec0 true ITERATIVE).

(** The 4x4 matrix [pose] returns for a solved [rvec] and [tvec]. *)
Definition pose_matrix (rvec tvec : Vec3d) : head_pose :=
  let rotation := Rodrigues rvec in
  let d1000 := F64.of_Z 1000 in
  [ mat_at 3 rotation 0 0; mat_at 3 rotation 0 1; mat_at 3 rotation 0 2;
      F64.div (vec3_at tvec 0) d1000;
    mat_at 3 rotation 1 0; mat_at 3 rotation 1 1; mat_at 3 rotation 1 2;
      F64.div (vec3_at tvec 1) d1000;
    mat_at 3 rotation 2 0; mat_at 3 rotation 2 1; mat_at 3 rotation 2 2;
      F64.div (vec3_at tvec 2) d1000;
    F64.of_Z 0; F64.of_Z 0; F64.of_Z 0; F64.of_Z 1 ].

(** [HeadPoseEstimation::pose]. *)
Definition pose (st : HeadPoseEstimation) (face_idx : nat) : outcome head_pose :=
  call ← pose_solve_call st face_idx;
  let '(rvec, tvec) := solvePnP call in
  Ret (pose_matrix rvec tvec).

(** [HeadPoseEstimation::poses]; the [int] counter of the loop is held as a
    natural number, the number of faces of a frame being far below 2^31. *)
Definition poses (st : HeadPoseEstimation) : outcome (list head_pose) :=
  mapM (pose st) (seq 0 (length (faces st))).

(** *** Drawing *)

(** [int(d)] for a double: truncation toward zero, undefined when the
    truncated value is not an [int]. *)
Definition double_to_int (d : float64) : outcome Z :=
  match d with
  | S754_zero _ => Ret 0
  | S754_finite s m e =>
      let t := Z.shiftl (Z.pos m) e in
      let v := if s then - t else t in
      if (- 2 ^ 31 <=? v) && (v <=? 2 ^ 31 - 1) then Ret v else UB FloatToIntOverflow
  | _ => UB FloatToIntOverflow
  end.

(** A [Point2f] passed where [cv::line] and [cv::putText] take a [Point]. *)
Definition Point_of_Point2f (p : Point2f) : Point :=
  mkPoint (saturate_cast_int (x2f p)) (saturate_cast_int (y2f p)).

(** The index pairs [(i, i-1)] for [i] from [a] to [b]. *)
Definition chain (a b : nat) : list (nat * nat) :=
  (λ i, (i, i - 1)%nat) <$> seq a (S b - a).

(** The segments [drawFeatures] draws for one face, in its order. *)
Definition feature_segments : list (nat * nat) :=
  chain 1 16 ++ chain 28 30 ++ chain 18 21 ++ chain 23 26
  ++ chain 31 35 ++ [(30, 35)%nat]
  ++ chain 37 41 ++ [(36, 41)%nat]
  ++ chain 43 47 ++ [(42, 47)%nat]
  ++ chain 49 59 ++ [(48, 59)%nat]
  ++ chain 61 67 ++ [(60, 67)%nat].

Definition line_color : Scalar := mkScalar 0 128 128.

(** The body of the outer loop of [drawFeatures] for one face. *)
Fixpoint drawSegments (feature_points : list Point) (segs : list (nat * nat))
    (result : Mat) (σ : store) : outcome store :=
  match segs with
  | [] => Ret σ
  | (i, j) :: segs' =>
      p ← vec_at feature_points i;
      q ← vec_at feature_points j;
      σ' ← paint result (DLine p q line_color 2) σ;
      drawSegments feature_points segs' result σ'
  end.

(** [HeadPoseEstimation::drawFeatures]. *)
Fixpoint drawFeatures (detected_features : list (list Point)) (result : Mat) (σ : store)
    : outcome store :=
  match detected_features with
  | [] => Ret σ
  | feature_points :: rest =>
      σ' ← drawSegments feature_points feature_segments result σ;
      drawFeatures rest result σ'
  end.

Definition x_axis_color : Scalar := mkScalar 255 0 0.
Definition y_axis_color : Scalar := mkScalar 0 255 0.
Definition z_axis_color : Scalar := mkScalar 0 0 255.
Definition text_color : Scalar := mkScalar 0 0 255.

Definition axes : list Point3f :=
  [ mkPoint3f (F32.of_Z 0) (F32.of_Z 0) (F32.of_Z 0);
    mkPoint3f (F32.of_Z 50) (F32.of_Z 0) (F32.of_Z 0);
    mkPoint3f (F32.of_Z 0) (F32.of_Z 50) (F32.of_Z 0);
    mkPoint3f (F32.of_Z 0) (F32.of_Z 0) (F32.of_Z 50) ].

(** [to_string(int(v * 100))]. *)
Definition cm_text (v : float64) : outcome string :=
  pretty <$> double_to_int (F64.mul v (F64.of_Z 100)).

(** The text of the label: the translation in whole centimetres. *)
Definition label_text (detected_pose : head_pose) : outcome string :=
  tx ← cm_text (mat_at 4 detected_pose 0 3);
  ty ← cm_text (mat_at 4 detected_pose 1 3);
  tz ← cm_text (mat_at 4 detected_pose 2 3);
  Ret ("(" +:+ tx +:+ "cm, " +:+ ty +:+ "cm, " +:+ tz +:+ "cm)").

(** [HeadPoseEstimation::drawPose] (the list of head points it also builds
    is not read). *)
Definition drawPose (st : HeadPoseEstimation) (detected_pose : head_pose) (face_idx : nat)
    (result : Mat) (σ : store) : outcome store :=
  let rotation :=
    [ mat_at 4 detected_pose 0 0; mat_at 4 detected_pose 0 1; mat_at 4 detected_pose 0 2;
      mat_at 4 detected_pose 1 0; mat_at 4 detected_pose 1 1; mat_at 4 detected_pose 1 2;
      mat_at 4 detected_pose 2 0; mat_at 4 detected_pose 2 1; mat_at 4 detected_pose 2 2 ] in
  let rvec := Rodrigues_inv rotation in
  let tvec := mkVec3d (mat_at 4 detected_pose 0 3) (mat_at 4 detected_pose 1 3)
                      (mat_at 4 detected_pose 2 3) in
  let projection :=
    [ focalLength st; F32.of_Z 0; opticalCenterX st;
      F32.of_Z 0; focalLength st; opticalCenterY st;
      F32.of_Z 0; F32.of_Z 0; F32.of_Z 1 ] in
  let projected_axes := projectPoints axes rvec tvec projection in
  a0 ← vec_at projected_axes 0;
  a3 ← vec_at projected_axes 3;
  σ1 ← paint result (DLine (Point_of_Point2f a0) (Point_of_Point2f a3) x_axis_color 2) σ;
  a2 ← vec_at projected_axes 2;
  σ2 ← paint result (DLine (Point_of_Point2f a0) (Point_of_Point2f a2) y_axis_color 2) σ1;
  a1 ← vec_at projected_axes 1;
  σ3 ← paint result (DLine (Point_of_Point2f a0) (Point_of_Point2f a1) z_axis_color 2) σ2;
  text ← label_text detected_pose;
  org ← coordsOf st face_idx SELLION;
  paint result (DText text (Point_of_Point2f org) F64.lit_0_5 text_color 2) σ3.

(** The loop of [drawDetections] over the poses, from index [i] on. *)
Fixpoint drawPoses (st : HeadPoseEstimation) (detected_poses : list head_pose) (i : nat)
    (result : Mat) (σ : store) : outcome store :=
  match detected_poses with
  | [] => Ret σ
  | p :: rest =>
      σ' ← drawPose st p i result σ;
      drawPoses st rest (S i) result σ'
  end.

(** [HeadPoseEstimation::drawDetections]: the store after the call and the
    returned image. *)
Definition drawDetections (st : HeadPoseEstimation) (σ : store) (original_image : Mat)
    (detected_features : list (list Point)) (detected_poses : list head_pose)
    : outcome (store * Mat) :=
  '(σ0, result) ← Mat_clone σ original_image;
  σ1 ← (match detected_features with
        | [] => Ret σ0
        | _ => drawFeatures detected_features result σ0
        end);
  σ2 ← drawPoses st detected_poses 0 result σ1;
  Ret (σ2, result).
End Estimator.


(** ** A run of calls on one estimator *)

Inductive request :=
  | CallUpdate (σ : store) (image : Mat)
  | CallPose (face_idx : nat)
  | CallPoses
  | CallDraw (σ : store) (image : Mat) (features : list (list Point))
             (detected_poses : list head_pose).

Section Runs.
Context `{Collaborators}.

(** One call: the estimator after it and the [solvePnP] calls it made.
    [pose] and [poses] are const, [drawDetections] assigns no member. *)
Definition serve (st : HeadPoseEstimation) (req : request)
    : outcome (HeadPoseEstimation * list solve_call) :=
  match req with
  | CallUpdate σ image => '(st', _) ← update st σ image; Ret (st', [])
  | CallPose i => _ ← pose st i; call ← pose_solve_call st i; Ret (st, [call])
  | CallPoses =>
      _ ← poses st;
      calls ← mapM (pose_solve_call st) (seq 0 (length (faces st)));
      Ret (st, calls)
  | CallDraw σ image features detected_poses =>
      _ ← drawDetections st σ image features detected_poses; Ret (st, [])
  end.

Fixpoint run (st : HeadPoseEstimation) (reqs : list request)
    : outcome (HeadPoseEstimation * list solve_call) :=
  match reqs with
  | [] => Ret (st, [])
  | req :: rest =>
      '(st1, calls1) ← serve st req;
      '(st2, calls2) ← run st1 rest;
      Ret (st2, calls1 ++ calls2)
  end.
End Runs.

(** ** Notions the properties are stated with *)

(** The estimator's optical centre. *)
Definition opticalCenter (st : HeadPoseEstimation) : float32 * float32 :=
  (opticalCenterX st, opticalCenterY st).

Definition is_update (req : request) : Prop :=
  match req with
  | CallUpdate _ _ => True
  | _ => False
  end.

(** The positions of the text labels among drawing commands. *)
Definition label_orgs (cmds : list draw_cmd) : list Point :=
  omap (λ cmd, match cmd with
               | DText _ org _ _ _ => Some org
               | DLine _ _ _ _ => None
               end) cmds.

(** The store after the commands [ann] were painted on the buffer at [l]. *)
Definition overpaint (l : nat) (ann : list draw_cmd) (σ : store) : store :=
  alter (λ c, mkCanvas (pixels c) (drawn c ++ ann)) l σ.

Definition no_throw {A} (o : outcome A) : Prop := ∀ e, o ≠ Throw e.

Section Notions.
Context `{Collaborators}.

(** Face [i] has stored landmarks: a shape is stored at index [i] and it has
    a part at the index of every named feature. *)
Definition has_landmarks (st : HeadPoseEstimation) (i : nat) : Prop :=
  ∃ d, shapes st !! i = Some d ∧ ∀ f, (feature_index f < length (parts d))%nat.

(** The point of a feature in a shape before its conversion to [Point2f],
    and after it, as [coordsOf] returns it. *)
Definition landmark_point (d : full_object_detection) (f : FACIAL_FEATURE) : Point :=
  toCv (default (mkDpoint 0 0) (parts d !! feature_index f)).
Definition landmark (d : full_object_detection) (f : FACIAL_FEATURE) : Point2f :=
  Point2f_of_Point (landmark_point d f).

(** The states an estimator goes through: those a run of calls reaches from
    a new estimator. *)
Definition reachable (st : HeadPoseEstimation) : Prop :=
  ∃ focal reqs calls, run (HeadPoseEstimation_new focal) reqs = Ret (st, calls).
End Notions.

(** ** A concrete set of collaborators, for the examples

    One face per byte of the image; landmark [i] of a face sits at
    [(left + i, top + i * i / 10)]; the solver answers with its initial
    guess and the projection only shifts a point by the principal point. *)

(** Modelled from the spec: the values of the enumerators are in the missing
    header; these are the indices the data model of the spec gives
    (SELLION=30, RIGHT_EYE=36, LEFT_EYE=45, MENTON=8, NOSE=33,
    MOUTH_CENTER_TOP=62, MOUTH_CENTER_BOTTOM=66), with the two sides, which
    it leaves open, at the ends of the jaw line. *)
Definition fixture_index (f : FACIAL_FEATURE) : nat :=
  match f with
  | NOSE => 33 | RIGHT_EYE => 36 | LEFT_EYE => 45 | RIGHT_SIDE => 0 | LEFT_SIDE => 16
  | SELLION => 30 | MOUTH_CENTER_TOP => 62 | MOUTH_CENTER_BOTTOM => 66 | MENTON => 8
  end.

Definition fixture_shape (r : rectangle) : full_object_detection :=
  mkShape r ((λ i, mkDpoint (r_left r + Z.of_nat i) (r_top r + Z.of_nat i * Z.of_nat i / 10))
               <$> seq 0 68).

Definition fixture_to_int (f : float32) : Z :=
  match f with
  | S754_finite s m e => let t := Z.shiftl (Z.pos m) e in if s then - t else t
  | _ => 0
  end.

Definition p3 (a b c : Z) : Point3f := mkPoint3f (F32.of_Z a) (F32.of_Z b) (F32.of_Z c).

Definition fixture : Collaborators := {|
  detector := λ v, (λ b, mkRect b b (b + 100) (b + 100)) <$> pixels (view v);
  pose_model := λ _ r, fixture_shape r;
  solvePnP := λ c, (rvec_in c, tvec_in c);
  Rodrigues := λ v, [F64.of_Z 1; F64.of_Z 0; F64.of_Z 0;
                     F64.of_Z 0; F64.of_Z 1; F64.of_Z 0;
                     F64.of_Z 0; F64.of_Z 0; F64.of_Z 1];
  Rodrigues_inv := λ _, mkVec3d (F64.of_Z 0) (F64.of_Z 0) (F64.of_Z 0);
  projectPoints := λ pts _ _ K,
    (λ p, mkPoint2f (F32.add (mat_at 3 K 0 2) (x3f p)) (F32.add (mat_at 3 K 1 2) (y3f p)))
      <$> pts;
  saturate_cast_int := fixture_to_int;
  feature_index := fixture_index;
  P3D_SELLION := p3 0 0 0;
  P3D_RIGHT_EYE := p3 (-20) (-65) (-5);
  P3D_LEFT_EYE := p3 (-20) 65 (-5);
  P3D_RIGHT_EAR := p3 (-100) (-77) (-6);
  P3D_LEFT_EAR := p3 (-100) 77 (-6);
  P3D_MENTON := p3 0 0 (-133);
  P3D_NOSE := p3 21 0 (-48);
  P3D_STOMMION := p3 10 0 (-75) |}.

(** Points with integer coordinates. *)
Definition pt (a b : Z) : Point2f := Point2f_of_Point (mkPoint a b).

(** An image of the given size whose bytes are [px], alone in its store. *)
Definition image_of (w h : Z) : Mat := mkMat w h 0.
Definition store_of (px : list Z) : store := {[ 0%nat := mkCanvas px [] ]}.

Section Demo.
#[local] Existing Instance fixture.

(** A 640x480 frame with one face, whose landmark [i] is at
    [(10 + i, 10 + i * i / 10)], processed by a new estimator of focal
    length 500. *)
Definition demo_first : outcome (HeadPoseEstimation * list (list Point)) :=
  update (HeadPoseEstimation_new (F32.of_Z 500)) (store_of [10]) (image_of 640 480).
Definition demo_state : HeadPoseEstimation :=
  match demo_first with
  | Ret (st, _) => st
  | _ => HeadPoseEstimation_new (F32.of_Z 500)
  end.
Definition demo_features : list (list Point) :=
  match demo_first with
  | Ret (_, fs) => fs
  | _ => []
  end.
Definition demo_pose : head_pose :=
  match pose demo_state 0 with
  | Ret m => m
  | _ => []
  end.

(** Later calls on that estimator: a frame of another size with another
    face, then poses and a drawing. *)
Definition demo_later : list request :=
  [ CallPose 0; CallUpdate (store_of [50]) (image_of 101 77); CallPoses; CallPose 0;
    CallDraw (store_of [50]) (image_of 101 77) demo_features [demo_pose] ].
Definition demo_final : HeadPoseEstimation :=
  match run demo_state demo_later with
  | Ret (st, _) => st
  | _ => demo_state
  end.
Definition demo_calls : list solve_call :=
  match run demo_state demo_later with
  | Ret (_, calls) => calls
  | _ => []
  end.

(** Another estimator, whose first frame was 101x77 with a face at 50. *)
Definition demo_other : HeadPoseEstimation :=
  match update (HeadPoseEstimation_new (F32.of_Z 500)) (store_of [50]) (image_of 101 77) with
  | Ret (st, _) => st
  | _ => HeadPoseEstimation_new (F32.of_Z 500)
  end.

(** What was painted on a returned image after the first [k] commands. *)
Definition painted_after (k : nat) (o : outcome (store * Mat)) : list draw_cmd :=
  match o with
  | Ret (σ', r) =>
      match σ' !! data r with
      | Some c => drop k (drawn c)
      | None => []
      end
  | _ => []
  end.

(** The store after drawing on the first frame with the later estimator. *)
Definition demo_drawn_store : store :=
  match drawDetections demo_final (store_of [10]) (image_of 640 480) demo_features [demo_pose]
  with
  | Ret (σ', _) => σ'
  | _ => ∅
  end.
End Demo.

(** ** Further notions *)

(** The float holds the integer [z]; a zero of either sign holds 0. *)
Definition holds_int (prec : Z) (f : spec_float) (z : Z) : Prop :=
  f = scaled prec z 0 ∨ (z = 0 ∧ f = S754_zero true).

(** NaN and the infinities. *)
Definition non_finite (f : spec_float) : Prop :=
  match f with
  | S754_nan | S754_infinity _ => True
  | _ => False
  end.

(** The call returns. *)
Definition returns {A} (o : outcome A) : Prop :=
  match o with
  | Ret _ => True
  | _ => False
  end.

(** The landmark list [update] builds for one shape when its 68 parts are
    there. *)
Definition landmarks_of (d : full_object_detection) : list Point :=
  toCv <$> take 68 (parts d).

(** The lines between the points of one landmark list, for the index pairs
    [segs]. *)
Definition segment_lines (fp : list Point) (segs : list (nat * nat)) : list draw_cmd :=
  (λ s, DLine (default (mkPoint 0 0) (fp !! s.1)) (default (mkPoint 0 0) (fp !! s.2))
          line_color 2) <$> segs.
Definition feature_lines (fp : list Point) : list draw_cmd := segment_lines fp feature_segments.

(** The colour a command paints with. *)
Definition cmd_color (cmd : draw_cmd) : Scalar :=
  match cmd with
  | DLine _ _ color _ => color
  | DText _ _ _ color _ => color
  end.

(** The parts of a pose [drawPose] reads: the 3x3 rotation block and the
    translation column. *)
Definition rotation_of (p : head_pose) : Matx :=
  [ mat_at 4 p 0 0; mat_at 4 p 0 1; mat_at 4 p 0 2;
    mat_at 4 p 1 0; mat_at 4 p 1 1; mat_at 4 p 1 2;
    mat_at 4 p 2 0; mat_at 4 p 2 1; mat_at 4 p 2 2 ].
Definition translation_of (p : head_pose) : Vec3d :=
  mkVec3d (mat_at 4 p 0 3) (mat_at 4 p 1 3) (mat_at 4 p 2 3).

(** The intrinsic matrix written out, as [drawPose] has it. *)
Definition intrinsics (st : HeadPoseEstimation) : Matx :=
  [ focalLength st; F32.of_Z 0; opticalCenterX st;
    F32.of_Z 0; focalLength st; opticalCenterY st;
    F32.of_Z 0; F32.of_Z 0; F32.of_Z 1 ].

Section MoreNotions.
Context `{Collaborators}.

(** The image points [drawPose] gets for the origin and the three axis
    tips. *)
Definition projected_axes (st : HeadPoseEstimation) (p : head_pose) : list Point2f :=
  projectPoints axes (Rodrigues_inv (rotation_of p)) (translation_of p) (intrinsics st).

(** The four commands of one [drawPose]. *)
Definition pose_commands (a0 a1 a2 a3 : Point2f) (text : string) (org : Point2f)
    : list draw_cmd :=
  [ DLine (Point_of_Point2f a0) (Point_of_Point2f a3) x_axis_color 2;
    DLine (Point_of_Point2f a0) (Point_of_Point2f a2) y_axis_color 2;
    DLine (Point_of_Point2f a0) (Point_of_Point2f a1) z_axis_color 2;
    DText text (Point_of_Point2f org) F64.lit_0_5 text_color 2 ].

(** The sellion of a landmark list, where [drawPose] would put the label if
    the list is the one stored. *)
Definition sellion_of (fl : list Point) : Point :=
  Point_of_Point2f (Point2f_of_Point (default (mkPoint 0 0) (fl !! feature_index SELLION))).
(** The commands of a pose at face index [i]. *)
Definition pose_block (st : HeadPoseEstimation) (i : nat) (p : head_pose)
    (blk : list draw_cmd) : Prop :=
  ∃ a0 a1 a2 a3 rest text org,
    projected_axes st p = a0 :: a1 :: a2 :: a3 :: rest
    ∧ label_text p = Ret text
    ∧ coordsOf st i SELLION = Ret org
    ∧ blk = pose_commands a0 a1 a2 a3 text org.
End MoreNotions.

(** ** More examples *)

(** The collaborators of the examples with a predictor of another layout:
    five landmarks per face, as dlib's 5-point model gives. *)
Definition fixture_five : Collaborators := {|
  detector := @detector fixture;
  pose_model := λ _ r,
    mkShape r ((λ i, mkDpoint (r_left r + Z.of_nat i) (r_top r)) <$> seq 0 5);
  solvePnP := @solvePnP fixture;
  Rodrigues := @Rodrigues fixture;
  Rodrigues_inv := @Rodrigues_inv fixture;
  projectPoints := @projectPoints fixture;
  saturate_cast_int := @saturate_cast_int fixture;
  feature_index := @feature_index fixture;
  P3D_SELLION := @P3D_SELLION fixture;
  P3D_RIGHT_EYE := @P3D_RIGHT_EYE fixture;
  P3D_LEFT_EYE := @P3D_LEFT_EYE fixture;
  P3D_RIGHT_EAR := @P3D_RIGHT_EAR fixture;
  P3D_LEFT_EAR := @P3D_LEFT_EAR fixture;
  P3D_MENTON := @P3D_MENTON fixture;
  P3D_NOSE := @P3D_NOSE fixture;
  P3D_STOMMION := @P3D_STOMMION fixture |}.

(** A pose with the identity rotation and the translation
    (0.999, -0.005, 1.5), and one whose translation is NaN. *)
Definition demo_near : head_pose :=
  [ F64.of_Z 1; F64.of_Z 0; F64.of_Z 0; F64.div (F64.of_Z 999) (F64.of_Z 1000);
    F64.of_Z 0; F64.of_Z 1; F64.of_Z 0; F64.div (F64.of_Z (-5)) (F64.of_Z 1000);
    F64.of_Z 0; F64.of_Z 0; F64.of_Z 1; F64.div (F64.of_Z 15) (F64.of_Z 10);
    F64.of_Z 0; F64.of_Z 0; F64.of_Z 0; F64.of_Z 1 ].
Definition demo_nan : head_pose := replicate 16 S754_nan.

Section DemoMore.
#[local] Existing Instance fixture.

(** The estimator of the first example after a second frame with two
    faces, the second of which is the face of the first frame. *)
Definition demo_pair : HeadPoseEstimation :=
  match update demo_state (store_of [50; 10]) (image_of 101 77) with
  | Ret (st, _) => st
  | _ => demo_state
  end.

(** The store after one [drawPose] on the first frame itself, and after
    drawing the landmarks and the pose of the first frame on a copy. *)
Definition demo_posed_store : store :=
  match drawPose demo_state demo_pose 0 (image_of 640 480) (store_of [10]) with
  | Ret σ' => σ'
  | _ => ∅
  end.
Definition demo_same_frame_store : store :=
  match drawDetections demo_state (store_of [10]) (image_of 640 480) demo_features [demo_pose]
  with
  | Ret (σ', _) => σ'
  | _ => ∅
  end.
End DemoMore.

(** * Part II: properties *)

(** ** Exact rounding

    Rounding a pair [(m, e)] whose value a format holds gives the float of
    that value; from there, the integers below [2^prec] convert and add
    without error, and halving is exact too. *)

Lemma shl_S k m : shl (S k) m = xO (shl k m).
Proof. reflexivity. Qed.

Lemma shl_add a b m : shl a (shl b m) = shl (a + b) m.
Proof. induction a as [| a IH]; [reflexivity |]. simpl. by rewrite <- IH. Qed.

Lemma shl_value k m : Z.pos (shl k m) = Z.pos m * 2 ^ Z.of_nat k.
Proof.
  induction k as [| k IH]; [simpl; lia |].
  rewrite shl_S, Pos2Z.inj_xO, IH, Nat2Z.inj_succ, Z.pow_succ_r by lia. lia.
Qed.

Lemma digits_shl k m :
  Z.pos (digits2_pos (shl k m)) = Z.pos (digits2_pos m) + Z.of_nat k.
Proof.
  induction k as [| k IH]; [simpl; lia |].
  rewrite shl_S. simpl digits2_pos. rewrite Pos2Z.inj_succ, IH. lia.
Qed.

Lemma digits_bound c p : Z.pos c < 2 ^ p → Z.pos (digits2_pos c) ≤ p.
Proof.
  intros Hc. assert (Hp : 0 ≤ p).
  { destruct (Z.le_gt_cases 0 p) as [|Hneg]; [done |]. rewrite Z.pow_neg_r in Hc; lia. }
  assert (Hd : digits2_pos c = Pos.size c).
  { clear. induction c as [c IH | c IH |]; simpl; [by rewrite IH | by rewrite IH | done]. }
  rewrite Hd. pose proof (Pos.size_le c) as Hs.
  apply Pos2Z.pos_le_pos in Hs. rewrite Pos2Z.inj_pow in Hs.
  destruct (Z.le_gt_cases (Z.pos (Pos.size c)) p) as [| Hgt]; [done |].
  assert (2 ^ (p + 1) ≤ 2 ^ Z.pos (Pos.size c)) by (apply Z.pow_le_mono_r; lia).
  rewrite Z.pow_add_r in * by lia. lia.
Qed.

Lemma Pos_iter_shl m d : Pos.iter xO m d = shl (Pos.to_nat d) m.
Proof. apply Pos2Nat.inj_iter. Qed.

Lemma iter_pos_nat {A} (f : A → A) p x :
  SpecFloat.iter_pos f p x = Nat.iter (Pos.to_nat p) f x.
Proof.
  revert x. induction p as [p IH | p IH |]; intros x.
  - rewrite Pos2Nat.inj_xI.
    change (SpecFloat.iter_pos f p (SpecFloat.iter_pos f p (f x))
            = Nat.iter (S (2 * Pos.to_nat p)) f x).
    rewrite !IH.
    replace (S (2 * Pos.to_nat p)) with (Pos.to_nat p + (Pos.to_nat p + 1))%nat by lia.
    by rewrite !Nat.iter_add.
  - rewrite Pos2Nat.inj_xO.
    change (SpecFloat.iter_pos f p (SpecFloat.iter_pos f p x)
            = Nat.iter (2 * Pos.to_nat p) f x).
    rewrite !IH.
    replace (2 * Pos.to_nat p)%nat with (Pos.to_nat p + Pos.to_nat p)%nat by lia.
    by rewrite Nat.iter_add.
  - reflexivity.
Qed.

(** Shifting right the zero bits that a shift left appended loses nothing. *)
Lemma shr_1_exact k m :
  Nat.iter k shr_1 (Build_shr_record (Z.pos (shl k m)) false false)
  = Build_shr_record (Z.pos m) false false.
Proof.
  induction k as [| k IH]; [reflexivity |].
  rewrite Nat.iter_succ_r. rewrite shl_S. simpl shr_1. apply IH.
Qed.

Lemma shr_exact m e k :
  shr (Build_shr_record (Z.pos (shl k m)) false false) e (Z.of_nat k)
  = (Build_shr_record (Z.pos m) false false, e + Z.of_nat k).
Proof.
  destruct k as [| k].
  - simpl. f_equal. lia.
  - change (Z.of_nat (S k)) with (Z.pos (Pos.of_succ_nat k)). unfold shr.
    by rewrite iter_pos_nat, SuccNat2Pos.id_succ, shr_1_exact.
Qed.

Lemma shl_align_ge m e e' : e ≤ e' → shl_align m e e' = (m, e).
Proof.
  intros He. unfold shl_align.
  destruct (e' - e) as [| d | d] eqn:Hd; [reflexivity | reflexivity | lia].
Qed.

Lemma shl_align_lt m e k :
  shl_align m e (e - Z.of_nat k) = (shl k m, e - Z.of_nat k).
Proof.
  destruct k as [| k].
  - rewrite shl_align_ge by lia. simpl. f_equal. lia.
  - unfold shl_align.
    replace (e - Z.of_nat (S k) - e) with (Z.neg (Pos.of_succ_nat k)) by lia.
    by rewrite Pos_iter_shl, SuccNat2Pos.id_succ.
Qed.

Section Exact.
Variables prec emax : Z.

Lemma shr_fexp_exact m e k :
  is_canonical prec emax m e →
  shr_fexp prec emax (Z.pos (shl k m)) (e - Z.of_nat k) loc_Exact
  = (Build_shr_record (Z.pos m) false false, e).
Proof.
  intros [Hc _]. unfold shr_fexp. simpl Zdigits2. rewrite digits_shl.
  replace (Z.pos (digits2_pos m) + Z.of_nat k + (e - Z.of_nat k))
    with (Z.pos (digits2_pos m) + e) by lia.
  rewrite Hc. replace (e - (e - Z.of_nat k)) with (Z.of_nat k) by lia.
  simpl shr_record_of_loc. rewrite shr_exact. f_equal. lia.
Qed.

Lemma round_aux_exact s m e k :
  is_canonical prec emax m e →
  binary_round_aux prec emax s (Z.pos (shl k m)) (e - Z.of_nat k) loc_Exact
  = S754_finite s m e.
Proof.
  intros Hc. unfold binary_round_aux. rewrite (shr_fexp_exact m e k Hc). simpl.
  pose proof (shr_fexp_exact m e 0 Hc) as H0. simpl in H0.
  rewrite Z.sub_0_r in H0. rewrite H0. simpl.
  destruct Hc as [_ Hb]. by rewrite (Zle_imp_le_bool _ _ Hb).
Qed.

(** Rounding a pair whose mantissa has spare low zero bits. *)
Lemma round_exact_down s m e k :
  is_canonical prec emax m e →
  binary_round prec emax s (shl k m) (e - Z.of_nat k) = S754_finite s m e.
Proof.
  intros Hc. unfold binary_round. rewrite digits_shl.
  replace (Z.pos (digits2_pos m) + Z.of_nat k + (e - Z.of_nat k))
    with (Z.pos (digits2_pos m) + e) by lia.
  rewrite (proj1 Hc), shl_align_ge by lia. by apply round_aux_exact.
Qed.

(** Rounding a pair whose mantissa is too short. *)
Lemma round_exact_up s m e k :
  is_canonical prec emax (shl k m) (e - Z.of_nat k) →
  binary_round prec emax s m e = S754_finite s (shl k m) (e - Z.of_nat k).
Proof.
  intros Hc. unfold binary_round.
  pose proof (proj1 Hc) as Hc'. rewrite digits_shl in Hc'.
  replace (Z.pos (digits2_pos m) + Z.of_nat k + (e - Z.of_nat k))
    with (Z.pos (digits2_pos m) + e) in Hc' by lia.
  rewrite Hc', shl_align_lt.
  pose proof (round_aux_exact s (shl k m) (e - Z.of_nat k) 0 Hc) as Hr.
  simpl in Hr. by rewrite Z.sub_0_r in Hr.
Qed.

Lemma dyadic_canonical c j :
  fits prec emax c j →
  is_canonical prec emax (shl (spare prec c) c) (j - Z.of_nat (spare prec c)).
Proof.
  intros [Hd [Hlo Hhi]]. unfold is_canonical, spare, fexp. rewrite digits_shl.
  rewrite Z2Nat.id by lia. lia.
Qed.

(** Whatever pair stands for [c * 2^j], rounding gives the same float. *)
Lemma round_dyadic s c j k :
  fits prec emax c j →
  binary_round prec emax s (shl k c) (j - Z.of_nat k) = dyadic prec s c j.
Proof.
  intros Hf. pose proof (dyadic_canonical c j Hf) as Hc. unfold dyadic.
  destruct (Nat.le_gt_cases (spare prec c) k) as [Hle | Hgt].
  - replace k with ((k - spare prec c) + spare prec c)%nat at 1 by lia.
    rewrite <- shl_add.
    replace (j - Z.of_nat k)
      with (j - Z.of_nat (spare prec c) - Z.of_nat (k - spare prec c)) by lia.
    by apply round_exact_down.
  - replace (spare prec c) with ((spare prec c - k) + k)%nat in Hc |- * by lia.
    rewrite <- shl_add in Hc |- *.
    replace (j - Z.of_nat (spare prec c - k + k))
      with (j - Z.of_nat k - Z.of_nat (spare prec c - k)) in Hc |- * by lia.
    by apply round_exact_up.
Qed.

Lemma round_aux_dyadic s c j k :
  fits prec emax c j → (spare prec c ≤ k)%nat →
  binary_round_aux prec emax s (Z.pos (shl k c)) (j - Z.of_nat k) loc_Exact
  = dyadic prec s c j.
Proof.
  intros Hf Hle. pose proof (dyadic_canonical c j Hf) as Hc. unfold dyadic.
  replace k with ((k - spare prec c) + spare prec c)%nat at 1 by lia.
  rewrite <- shl_add.
  replace (j - Z.of_nat k)
    with (j - Z.of_nat (spare prec c) - Z.of_nat (k - spare prec c)) by lia.
  by apply round_aux_exact.
Qed.

Hypothesis Hprec : 1 < prec.
Hypothesis Hemax : prec ≤ emax.

Lemma fits_int c : Z.pos c < 2 ^ prec → fits prec emax c 0.
Proof.
  intros Hc. pose proof (digits_bound c prec Hc) as Hd. unfold fits, emin. lia.
Qed.

Lemma normalize_int z n :
  Z.abs z < 2 ^ prec →
  binary_normalize prec emax (z * 2 ^ Z.of_nat n) (- Z.of_nat n) false = scaled prec z 0.
Proof.
  intros Hz. destruct z as [| c | c].
  - reflexivity.
  - rewrite <- shl_value. apply (round_dyadic false c 0 n). apply fits_int. lia.
  - rewrite <- Pos2Z.opp_pos, Z.mul_opp_l, <- shl_value.
    apply (round_dyadic true c 0 n). apply fits_int. lia.
Qed.


End Exact.

(** *** In binary32 and binary64 *)

Lemma binary32_of_Z z : Z.abs z < 2 ^ 24 → F32.of_Z z = scaled 24 z 0.
Proof.
  intros Hz. unfold F32.of_Z, F32.prec, F32.emax.
  rewrite <- (normalize_int 24 128 ltac:(lia) ltac:(lia) z 0 Hz).
  f_equal. simpl. lia.
Qed.

Lemma binary64_of_binary32 s c :
  Z.pos c < 2 ^ 24 → F64.of_F32 (dyadic 24 s c 0) = dyadic 53 s c 0.
Proof.
  intros Hc. unfold dyadic at 1, F64.of_F32, F64.prec, F64.emax. apply round_dyadic.
  pose proof (digits_bound c 24 Hc). unfold fits, emin. lia.
Qed.




(** The value of the float of an integer, and of a half-integer. *)
Lemma F2Q_scaled_int z :
  ∃ q, F2Q (scaled 24 z 0) = Some q ∧ (q == inject_Z z)%Q.
Proof.
  assert (Hd : ∀ s c, ∃ q, F2Q (dyadic 24 s c 0) = Some q
                        ∧ (q == inject_Z (if s then Z.neg c else Z.pos c))%Q).
  { intros s c. unfold dyadic. set (k := spare 24 c). destruct k as [| k].
    - eexists. split; [reflexivity |]. simpl. reflexivity.
    - replace (0 - Z.of_nat (S k)) with (Z.neg (Pos.of_succ_nat k)) by lia.
      eexists. split; [reflexivity |]. unfold Qeq, inject_Z. cbn [Qnum Qden].
      rewrite Pos2Z.inj_pow, Zpos_P_of_succ_nat, <- Nat2Z.inj_succ.
      pose proof (shl_value (S k) c) as Hv.
      destruct s; [rewrite <- !Pos2Z.opp_pos |]; lia. }
  destruct z as [| c | c]; [by exists 0%Q | apply (Hd false) | apply (Hd true)].
Qed.




(** ** The line intersection helper: properties *)


(** C10: when [intersection] reports no intersection (the parallel case),
    the reference parameter [r] has after the call the value it had before:
    [r] is assigned on the success path only. *)
Theorem intersection_failure_keeps_r (o1 p1 o2 p2 r : Point2f) :
  fst (intersection o1 p1 o2 p2 r) = false → snd (intersection o1 p1 o2 p2 r) = r.
Proof.
  unfold intersection.
  destruct (F64.ltb _ _); simpl; intros Hf; [reflexivity | discriminate].
Qed.

Lemma intersection_failure_keeps_r_witness :
  fst (intersection (pt 0 0) (pt 2 2) (pt 1 1) (pt 3 3) (pt 7 7)) = false
  ∧ snd (intersection (pt 0 0) (pt 2 2) (pt 1 1) (pt 3 3) (pt 7 7)) = pt 7 7.
Proof.
  split; [vm_compute; reflexivity |].
  apply (intersection_failure_keeps_r (pt 0 0) (pt 2 2) (pt 1 1) (pt 3 3) (pt 7 7)).
  vm_compute; reflexivity.
Defined.

(** On success the old value of [r] plays no part. *)
Lemma intersection_success_overwrites (o1 p1 o2 p2 r r' : Point2f) :
  fst (intersection o1 p1 o2 p2 r) = true →
  intersection o1 p1 o2 p2 r' = intersection o1 p1 o2 p2 r.
Proof.
  unfold intersection.
  destruct (F64.ltb _ _); simpl; intros Hf; [discriminate | reflexivity].
Qed.




(** ** The pose solver: properties *)

Section PoseProperties.
Context `{Collaborators}.

Lemma coordsOf_stored st i d f :
  shapes st !! i = Some d → (feature_index f < length (parts d))%nat →
  coordsOf st i f = Ret (landmark d f).
Proof.
  intros Hd Hf. unfold coordsOf, landmark, landmark_point, vec_at, part, vec_at.
  rewrite Hd. simpl.
  destruct (lookup_lt_is_Some_2 (parts d) (feature_index f) Hf) as [p Hp].
  rewrite Hp. reflexivity.
Qed.

Lemma coordsOf_out_of_range st i f :
  (length (shapes st) ≤ i)%nat → coordsOf st i f = UB OutOfBounds.
Proof.
  intros Hi. unfold coordsOf, vec_at. rewrite (lookup_ge_None_2 _ _ Hi). reflexivity.
Qed.

Lemma coordsOf_Ret_stored st i f p :
  coordsOf st i f = Ret p → (i < length (shapes st))%nat.
Proof.
  intros Hc. destruct (decide (i < length (shapes st))%nat) as [Hlt | Hge]; [done |].
  rewrite coordsOf_out_of_range in Hc by lia. discriminate.
Qed.

Lemma pose_solve_call_stored st i d :
  shapes st !! i = Some d → (∀ f, (feature_index f < length (parts d))%nat) →
  pose_solve_call st i =
    Ret (mkCall head_points
           [landmark d SELLION; landmark d RIGHT_EYE; landmark d LEFT_EYE;
            landmark d RIGHT_SIDE; landmark d LEFT_SIDE; landmark d MENTON;
            landmark d NOSE;
            midpoint2f (landmark d MOUTH_CENTER_TOP) (landmark d MOUTH_CENTER_BOTTOM)]
           (projection_of st) rvec0 tvec0 true ITERATIVE).
Proof.
  intros Hd Hf. unfold pose_solve_call.
  rewrite !(coordsOf_stored st i d) by auto. reflexivity.
Qed.

Lemma pose_solve_call_out_of_range st i :
  (length (shapes st) ≤ i)%nat → pose_solve_call st i = UB OutOfBounds.
Proof.
  intros Hi. unfold pose_solve_call.
  rewrite (coordsOf_out_of_range st i SELLION) by done. reflexivity.
Qed.

Lemma pose_unfold st i :
  pose st i = (λ call, pose_matrix (fst (solvePnP call)) (snd (solvePnP call)))
                <$> pose_solve_call st i.
Proof.
  unfold pose. destruct (pose_solve_call st i) as [call | e | u]; simpl; try reflexivity.
  destruct (solvePnP call); reflexivity.
Qed.


(** C1: for every face index with stored landmarks, [pose] returns a 4x4
    matrix whose top-left 3x3 block is [Rodrigues] of the rotation vector
    [solvePnP] left, whose last column holds in rows 0-2 the translation
    vector [solvePnP] left divided by 1000, and whose bottom row is
    [0, 0, 0, 1]. *)
Theorem pose_matrix_layout (st : HeadPoseEstimation) (face_idx : nat) :
  has_landmarks st face_idx →
  ∃ call m,
    pose_solve_call st face_idx = Ret call
    ∧ pose st face_idx = Ret m
    ∧ length m = 16%nat
    ∧ (∀ r c, (r < 3)%nat → (c < 3)%nat →
         mat_at 4 m r c = mat_at 3 (Rodrigues (fst (solvePnP call))) r c)
    ∧ (∀ r, (r < 3)%nat →
         mat_at 4 m r 3 = F64.div (vec3_at (snd (solvePnP call)) r) (F64.of_Z 1000))
    ∧ [mat_at 4 m 3 0; mat_at 4 m 3 1; mat_at 4 m 3 2; mat_at 4 m 3 3]
      = [F64.of_Z 0; F64.of_Z 0; F64.of_Z 0; F64.of_Z 1].
Proof.
  intros (d & Hd & Hf).
  eexists _, _. split; [apply (pose_solve_call_stored st face_idx d Hd Hf) |].
  split; [rewrite pose_unfold, (pose_solve_call_stored st face_idx d Hd Hf); reflexivity |].
  split; [reflexivity |].
  split; [| split; [| reflexivity]].
  - intros r c Hr Hc.
    destruct r as [|[|[|r]]]; [| | | lia]; destruct c as [|[|[|c]]]; try lia; reflexivity.
  - intros r Hr. destruct r as [|[|[|r]]]; [| | | lia]; reflexivity.
Qed.


(** C6, amended: for every [face_idx] at or past the number of stored
    shapes, [pose] indexes the vector of shapes out of bounds without a
    check, which is undefined behaviour; no error is signalled. *)
Theorem pose_out_of_range_unchecked (st : HeadPoseEstimation) (face_idx : nat) :
  (length (shapes st) ≤ face_idx)%nat →
  pose st face_idx = UB OutOfBounds ∧ ∀ e, pose st face_idx ≠ Throw e.
Proof.
  intros Hi. rewrite pose_unfold, pose_solve_call_out_of_range by done.
  split; [reflexivity | intros e; discriminate].
Qed.
End PoseProperties.

(** ** Sequences of calls: properties *)

Section RunProperties.
Context `{Collaborators}.

Lemma mapM_Ret {A B} (f : A → outcome B) (xs : list A) (l : list B) :
  mapM f xs = Ret l ↔ Forall2 (λ x y, f x = Ret y) xs l.
Proof.
  revert l. induction xs as [| x xs IH]; intros l; simpl.
  - split; [intros [= <-]; constructor | intros Hl; inversion Hl; reflexivity].
  - split.
    + destruct (f x) as [y | |] eqn:Hx; simpl; try discriminate.
      destruct (mapM f xs) as [k | |] eqn:Hk; simpl; try discriminate.
      intros [= <-]. constructor; [assumption | by apply IH].
    + intros Hl. inversion Hl as [| ? y ? k Hy Hk]; subst.
      rewrite Hy. simpl. apply IH in Hk. rewrite Hk. reflexivity.
Qed.

Lemma round_aux_positive_not_negative prec emax mx ex lx m e :
  SFeqb (binary_round_aux prec emax false mx ex lx) (S754_finite true m e) = false.
Proof.
  unfold binary_round_aux.
  destruct (shr_fexp prec emax mx ex lx) as [mrs' e'].
  destruct (shr_fexp prec emax _ e' loc_Exact) as [mrs'' e''].
  destruct (shr_m mrs''); [reflexivity | | reflexivity].
  destruct (e'' <=? emax - prec); reflexivity.
Qed.

(** The float of a non-negative integer is never the sentinel [-1]. *)
Lemma of_Z_nonneg_not_sentinel n :
  0 ≤ n → F32.eqb (F32.of_Z n) (F32.of_Z (-1)) = false.
Proof.
  intros Hn. destruct n as [| p | p]; [reflexivity | | lia].
  unfold F32.eqb, F32.of_Z at 1, binary_normalize, binary_round.
  destruct (shl_align _ _ _) as [mz ez].
  apply round_aux_positive_not_negative.
Qed.

Lemma update_result st σ image st' feats :
  update st σ image = Ret (st', feats) →
  ∃ c, σ !! data image = Some c
    ∧ faces st' = detector (mkView (cols image) (rows image) c)
    ∧ shapes st' = pose_model (mkView (cols image) (rows image) c) <$> faces st'
    ∧ focalLength st' = focalLength st
    ∧ opticalCenter st' =
        (if F32.eqb (opticalCenterX st) (F32.of_Z (-1))
         then (F32.of_Z (cols image ÷ 2), F32.of_Z (rows image ÷ 2))
         else opticalCenter st).
Proof.
  unfold update, buf_at, opticalCenter.
  destruct (F32.eqb _ _); (destruct (σ !! data image) as [c |]; simpl; [| discriminate]);
    (destruct (mapM _ _) as [fs | |]; simpl; [| discriminate ..]);
    intros [= <- <-]; exists c; done.
Qed.

(** Only [update] assigns members of the estimator. *)
Lemma serve_not_update st req st' calls :
  ¬ is_update req → serve st req = Ret (st', calls) → st' = st.
Proof.
  destruct req as [σ image | i | | σ image fs ps]; simpl; intros Hnu Hs; [tauto | | |].
  - destruct (pose st i); simpl in Hs; try discriminate.
    destruct (pose_solve_call st i); simpl in Hs; try discriminate. by injection Hs.
  - destruct (poses st); simpl in Hs; try discriminate.
    destruct (mapM _ _); simpl in Hs; try discriminate. by injection Hs.
  - destruct (drawDetections _ _ _ _ _); simpl in Hs; try discriminate. by injection Hs.
Qed.

Lemma serve_center st req st' calls :
  serve st req = Ret (st', calls) →
  opticalCenter st' = opticalCenter st
  ∨ ∃ σ image, req = CallUpdate σ image
      ∧ F32.eqb (opticalCenterX st) (F32.of_Z (-1)) = true
      ∧ opticalCenter st' = (F32.of_Z (cols image ÷ 2), F32.of_Z (rows image ÷ 2)).
Proof.
  intros Hs. destruct req as [σ image | i | | σ image fs ps].
  - simpl in Hs.
    destruct (update st σ image) as [[st1 feats] | |] eqn:Hup; simpl in Hs; try discriminate.
    injection Hs as <- <-.
    destruct (update_result _ _ _ _ _ Hup) as (c & _ & _ & _ & _ & Hc).
    destruct (F32.eqb _ _) eqn:Hsent; [right; eauto | by left].
  - left. f_equal. exact (serve_not_update st (CallPose i) st' calls (λ x, x) Hs).
  - left. f_equal. exact (serve_not_update st CallPoses st' calls (λ x, x) Hs).
  - left. f_equal. exact (serve_not_update st (CallDraw σ image fs ps) st' calls (λ x, x) Hs).
Qed.

(** Once the centre is not the sentinel, no run of calls changes it. *)
Lemma run_center_fixed reqs st st' calls :
  F32.eqb (opticalCenterX st) (F32.of_Z (-1)) = false →
  run st reqs = Ret (st', calls) → opticalCenter st' = opticalCenter st.
Proof.
  revert st calls. induction reqs as [| req reqs IH]; intros st calls Hset; simpl.
  - by intros [= <- <-].
  - destruct (serve st req) as [[st1 calls1] | |] eqn:Hs; simpl; try discriminate.
    destruct (run st1 reqs) as [[st2 calls2] | |] eqn:Hr; simpl; try discriminate.
    intros [= <- <-].
    destruct (serve_center _ _ _ _ Hs) as [Hc | (σ & image & _ & Hsent & _)]; [| congruence].
    rewrite <- Hc. apply (IH st1 calls2); [| assumption].
    injection Hc as HX _. by rewrite HX.
Qed.

(** Before any [update], no call changes the estimator. *)
Lemma run_without_update reqs st st' calls :
  Forall (λ req, ¬ is_update req) reqs → run st reqs = Ret (st', calls) → st' = st.
Proof.
  revert st calls. induction reqs as [| req reqs IH]; intros st calls Hall; simpl.
  - by intros [= <- <-].
  - inversion Hall as [| ? ? Hreq Hrest]; subst.
    destruct (serve st req) as [[st1 calls1] | |] eqn:Hs; simpl; try discriminate.
    destruct (run st1 reqs) as [[st2 calls2] | |] eqn:Hr; simpl; try discriminate.
    intros [= <- <-].
    rewrite <- (serve_not_update _ _ _ _ Hreq Hs). by apply (IH st1 calls2).
Qed.

(** C4: a new estimator holds the sentinel (-1, -1) as optical centre and
    keeps it until the first [update]; the first [update] sets the centre
    to [(image.cols / 2, image.rows / 2)], the integer quotients converted
    to [float] (without error for images below 2^25 pixels a side); no
    later call changes it, whatever the size of the images of later
    [update] calls. ([cols] of a [cv::Mat] is never below -1.) *)
Theorem optical_center_set_once (focal : float32) (before : list request)
    (st0 : HeadPoseEstimation) (calls0 : list solve_call)
    (σ : store) (image : Mat) (st1 : HeadPoseEstimation) (feats : list (list Point))
    (after : list request) (st2 : HeadPoseEstimation) (calls2 : list solve_call) :
  -1 ≤ cols image →
  Forall (λ req, ¬ is_update req) before →
  run (HeadPoseEstimation_new focal) before = Ret (st0, calls0) →
  update st0 σ image = Ret (st1, feats) →
  run st1 after = Ret (st2, calls2) →
  opticalCenter st0 = (F32.of_Z (-1), F32.of_Z (-1))
  ∧ opticalCenter st1 = (F32.of_Z (cols image ÷ 2), F32.of_Z (rows image ÷ 2))
  ∧ opticalCenter st2 = opticalCenter st1
  ∧ (0 ≤ cols image < 2 ^ 25 → 0 ≤ rows image < 2 ^ 25 →
     ∃ qx qy, F2Q (opticalCenterX st1) = Some qx ∧ F2Q (opticalCenterY st1) = Some qy
       ∧ (qx == inject_Z (cols image ÷ 2))%Q ∧ (qy == inject_Z (rows image ÷ 2))%Q).
Proof.
  intros Hcols Hbefore Hrun0 Hup Hrun.
  rewrite (run_without_update _ _ _ _ Hbefore Hrun0) in *.
  destruct (update_result _ _ _ _ _ Hup) as (c & _ & _ & _ & _ & Hc).
  change (F32.eqb (opticalCenterX (HeadPoseEstimation_new focal)) (F32.of_Z (-1)))
    with true in Hc.
  split; [reflexivity |]. split; [assumption |]. split.
  - apply (run_center_fixed after st1 st2 calls2); [| assumption].
    injection Hc as -> _. apply of_Z_nonneg_not_sentinel.
    destruct (Z.eq_dec (cols image) (-1)) as [-> | Hne]; [done |].
    apply Z.quot_pos; lia.
  - intros Hc25 Hr25. injection Hc as -> ->.
    rewrite !Z.quot_div_nonneg by lia.
    assert (Hx : 0 ≤ cols image / 2 < 2 ^ 24)
      by (split; [apply Z.div_pos | apply Z.div_lt_upper_bound]; lia).
    assert (Hy : 0 ≤ rows image / 2 < 2 ^ 24)
      by (split; [apply Z.div_pos | apply Z.div_lt_upper_bound]; lia).
    rewrite !binary32_of_Z by lia.
    destruct (F2Q_scaled_int (cols image / 2)) as (qx & Hqx & Hvx).
    destruct (F2Q_scaled_int (rows image / 2)) as (qy & Hqy & Hvy).
    by exists qx, qy.
Qed.


Lemma serve_faces_shapes st req st' calls :
  length (faces st) = length (shapes st) → serve st req = Ret (st', calls) →
  length (faces st') = length (shapes st').
Proof.
  intros Hinv Hs. destruct req as [σ image | i | | σ image fs ps].
  - simpl in Hs.
    destruct (update st σ image) as [[st1 feats] | |] eqn:Hup; simpl in Hs; try discriminate.
    injection Hs as <- <-.
    destruct (update_result _ _ _ _ _ Hup) as (c & _ & _ & Hsh & _).
    rewrite Hsh. by rewrite length_fmap.
  - by rewrite (serve_not_update st (CallPose i) st' calls (λ x, x) Hs).
  - by rewrite (serve_not_update st CallPoses st' calls (λ x, x) Hs).
  - by rewrite (serve_not_update st (CallDraw σ image fs ps) st' calls (λ x, x) Hs).
Qed.

(** In a reachable state there is one stored shape per detected face. *)
Lemma reachable_faces_shapes st :
  reachable st → length (faces st) = length (shapes st).
Proof.
  intros (focal & reqs & calls & Hrun).
  assert (Hgen : ∀ reqs st0 st1 calls,
             length (faces st0) = length (shapes st0) →
             run st0 reqs = Ret (st1, calls) → length (faces st1) = length (shapes st1)).
  { clear. intros reqs. induction reqs as [| req reqs IH]; intros st0 st1 calls Hinv; simpl.
    - by intros [= <- <-].
    - destruct (serve st0 req) as [[sta callsa] | |] eqn:Hs; simpl; try discriminate.
      destruct (run sta reqs) as [[stb callsb] | |] eqn:Hr; simpl; try discriminate.
      intros [= <- <-]. apply (IH sta stb callsb); [| assumption].
      by apply (serve_faces_shapes st0 req sta callsa). }
  by apply (Hgen reqs (HeadPoseEstimation_new focal) st calls).
Qed.

(** C5: in every state an estimator reaches, [poses] is [pose] applied to
    the indices 0, 1, ... of the stored shapes in order: it returns a list
    exactly when [pose] returns for every stored face, and the list is then
    [pose 0, pose 1, ...]; an [update] on a frame where the detector finds
    no face returns the empty landmark list, and [poses] then returns the
    empty list. *)
Theorem poses_maps_pose (st : HeadPoseEstimation) :
  reachable st →
  poses st = mapM (pose st) (seq 0 (length (shapes st)))
  ∧ (∀ l, poses st = Ret l ↔
          length l = length (shapes st) ∧ ∀ i m, l !! i = Some m → pose st i = Ret m)
  ∧ (∀ σ image c,
       σ !! data image = Some c →
       detector (mkView (cols image) (rows image) c) = [] →
       ∃ st', update st σ image = Ret (st', []) ∧ shapes st' = [] ∧ poses st' = Ret []).
Proof.
  intros Hreach.
  assert (Hposes : poses st = mapM (pose st) (seq 0 (length (shapes st)))).
  { unfold poses. by rewrite (reachable_faces_shapes st Hreach). }
  split; [exact Hposes |]. split.
  - intros l. rewrite Hposes.
    rewrite mapM_Ret, Forall2_same_length_lookup, length_seq. split.
    + intros [Hlen Hall]. split; [done |]. intros i m Hm.
      apply (Hall i i m); [| assumption].
      apply lookup_seq. split; [done |]. rewrite Hlen. by apply lookup_lt_Some in Hm.
    + intros [Hlen Hall]. split; [done |]. intros i x y [-> Hx]%lookup_seq Hy.
      by apply Hall.
  - intros σ image c Hc Hdet. unfold update, buf_at. rewrite Hc. simpl. rewrite Hdet. simpl.
    destruct (F32.eqb _ _); eexists; (split; [reflexivity |]); split; reflexivity.
Qed.
End RunProperties.

(** ** Drawing: properties *)

Section DrawProperties.
Context `{Collaborators}.

Lemma overpaint_nil l σ : overpaint l [] σ = σ.
Proof.
  apply map_eq; intros k. unfold overpaint.
  destruct (decide (l = k)) as [-> | Hne].
  - rewrite lookup_alter_eq. destruct (σ !! k) as [[px dr] |]; simpl; [| done].
    by rewrite app_nil_r.
  - by rewrite lookup_alter_ne.
Qed.

Lemma overpaint_app l a b σ : overpaint l b (overpaint l a σ) = overpaint l (a ++ b) σ.
Proof.
  apply map_eq; intros k. unfold overpaint.
  destruct (decide (l = k)) as [-> | Hne].
  - rewrite !lookup_alter_eq. destruct (σ !! k) as [[px dr] |]; simpl; [| done].
    by rewrite app_assoc.
  - by rewrite !lookup_alter_ne.
Qed.

Lemma paint_Ret result cmd σ σ' :
  paint result cmd σ = Ret σ' → σ' = overpaint (data result) [cmd] σ.
Proof.
  unfold paint, buf_at, overpaint.
  destruct (σ !! data result) as [c |] eqn:Hc; simpl; [| discriminate].
  intros [= <-]. apply map_eq; intros k.
  destruct (decide (data result = k)) as [<- | Hne].
  - by rewrite lookup_insert_eq, lookup_alter_eq, Hc.
  - by rewrite lookup_insert_ne, lookup_alter_ne.
Qed.

Lemma label_orgs_app a b : label_orgs (a ++ b) = label_orgs a ++ label_orgs b.
Proof. apply omap_app. Qed.

Lemma drawSegments_Ret fp segs result σ σ' :
  drawSegments fp segs result σ = Ret σ' →
  ∃ ann, σ' = overpaint (data result) ann σ ∧ label_orgs ann = [].
Proof.
  revert σ. induction segs as [| [i j] segs IH]; intros σ; simpl.
  - intros [= <-]. exists []. by rewrite overpaint_nil.
  - destruct (vec_at fp i) as [p | |]; simpl; try discriminate.
    destruct (vec_at fp j) as [q | |]; simpl; try discriminate.
    destruct (paint result _ σ) as [σ1 | |] eqn:Hp; simpl; try discriminate.
    intros (ann & -> & Hann)%IH. apply paint_Ret in Hp as ->.
    eexists (_ :: ann). by rewrite overpaint_app.
Qed.

Lemma drawFeatures_Ret fs result σ σ' :
  drawFeatures fs result σ = Ret σ' →
  ∃ ann, σ' = overpaint (data result) ann σ ∧ label_orgs ann = [].
Proof.
  revert σ. induction fs as [| fp fs IH]; intros σ.
  - intros [= <-]. exists []. by rewrite overpaint_nil.
  - change (drawFeatures (fp :: fs) result σ)
      with (drawSegments fp feature_segments result σ ≫= drawFeatures fs result).
    destruct (drawSegments fp feature_segments result σ) as [σ1 | |] eqn:Hs;
      [| discriminate ..].
    intros (ann & -> & Hann)%IH. apply drawSegments_Ret in Hs as (ann1 & -> & Hann1).
    exists (ann1 ++ ann). by rewrite overpaint_app, label_orgs_app, Hann1, Hann.
Qed.

Lemma coordsOf_Ret_landmark st i f org :
  coordsOf st i f = Ret org → ∃ d, shapes st !! i = Some d ∧ org = landmark d f.
Proof.
  unfold coordsOf, landmark, landmark_point, part, vec_at.
  destruct (shapes st !! i) as [d |]; simpl; [| discriminate].
  destruct (parts d !! feature_index f) as [p |] eqn:Hp; simpl; [| discriminate].
  intros [= <-]. exists d. by rewrite Hp.
Qed.

(** What one [drawPose] paints: three lines, then the label at the sellion
    of the stored shape number [face_idx]. *)
Lemma drawPose_Ret st p i result σ σ' :
  drawPose st p i result σ = Ret σ' →
  ∃ d ann, shapes st !! i = Some d
    ∧ σ' = overpaint (data result) ann σ
    ∧ label_orgs ann = [Point_of_Point2f (landmark d SELLION)].
Proof.
  unfold drawPose.
  destruct (vec_at _ 0%nat) as [a0 | |]; simpl; try discriminate.
  destruct (vec_at _ 3%nat) as [a3 | |]; simpl; try discriminate.
  destruct (paint result _ σ) as [σ1 | |] eqn:H1; simpl; try discriminate.
  destruct (vec_at _ 2%nat) as [a2 | |]; simpl; try discriminate.
  destruct (paint result _ σ1) as [σ2 | |] eqn:H2; simpl; try discriminate.
  destruct (vec_at _ 1%nat) as [a1 | |]; simpl; try discriminate.
  destruct (paint result _ σ2) as [σ3 | |] eqn:H3; simpl; try discriminate.
  destruct (label_text p) as [text | |]; simpl; try discriminate.
  destruct (coordsOf st i SELLION) as [org | |] eqn:Hc; simpl; try discriminate.
  intros H4. apply coordsOf_Ret_landmark in Hc as (d & Hd & ->).
  apply paint_Ret in H1 as ->. apply paint_Ret in H2 as ->.
  apply paint_Ret in H3 as ->. apply paint_Ret in H4 as ->.
  exists d. eexists. split; [done |]. rewrite !overpaint_app. split; reflexivity.
Qed.

Lemma drawPoses_Ret st ps i result σ σ' :
  drawPoses st ps i result σ = Ret σ' →
  (ps = [] ∨ (i + length ps ≤ length (shapes st))%nat)
  ∧ ∃ ann, σ' = overpaint (data result) ann σ
      ∧ label_orgs ann =
          (λ d, Point_of_Point2f (landmark d SELLION)) <$> take (length ps) (drop i (shapes st)).
Proof.
  revert i σ. induction ps as [| p ps IH]; intros i σ; simpl.
  - intros [= <-]. split; [by left |]. exists []. by rewrite overpaint_nil.
  - destruct (drawPose st p i result σ) as [σ1 | |] eqn:Hp; simpl; try discriminate.
    intros ([Hnil | Hlen] & ann & -> & Hann)%IH;
      apply drawPose_Ret in Hp as (d & ann1 & Hd & -> & Hann1);
      pose proof (lookup_lt_Some _ _ _ Hd) as Hi.
    + subst ps. split; [right; simpl; lia |].
      exists (ann1 ++ ann). rewrite overpaint_app, label_orgs_app, Hann1, Hann.
      split; [done |]. simpl. by rewrite (drop_S _ _ _ Hd).
    + split; [right; simpl; lia |].
      exists (ann1 ++ ann). rewrite overpaint_app, label_orgs_app, Hann1, Hann.
      split; [done |]. by rewrite (drop_S _ _ _ Hd).
Qed.

Lemma Mat_clone_Ret σ m σ0 r :
  Mat_clone σ m = Ret (σ0, r) →
  ∃ c, σ !! data m = Some c ∧ σ !! data r = None
    ∧ σ0 = <[data r := c]> σ ∧ cols r = cols m ∧ rows r = rows m.
Proof.
  unfold Mat_clone, buf_at. destruct (σ !! data m) as [c |]; simpl; [| discriminate].
  intros [= <- <-]. exists c. simpl. repeat split; try done.
  apply not_elem_of_dom. apply is_fresh.
Qed.

(** What a returning [drawDetections] did: it copied the buffer of the
    original image to a buffer that was not allocated and painted there. *)
Lemma drawDetections_Ret st σ img fs ps σ' r :
  drawDetections st σ img fs ps = Ret (σ', r) →
  (length ps ≤ length (shapes st))%nat
  ∧ ∃ c ann, σ !! data img = Some c ∧ σ !! data r = None
      ∧ σ' = <[data r := mkCanvas (pixels c) (drawn c ++ ann)]> σ
      ∧ cols r = cols img ∧ rows r = rows img
      ∧ label_orgs ann =
          (λ d, Point_of_Point2f (landmark d SELLION)) <$> take (length ps) (shapes st).
Proof.
  unfold drawDetections.
  destruct (Mat_clone σ img) as [[σ0 r0] | |] eqn:Hcl; simpl; try discriminate.
  apply Mat_clone_Ret in Hcl as (c & Hc & Hfresh & -> & Hcols & Hrows).
  set (σ0 := <[data r0 := c]> σ).
  assert (Hfeat : ∀ σ1, match fs with
                        | [] => Ret σ0
                        | _ :: _ => drawFeatures fs r0 σ0
                        end = Ret σ1 →
                        ∃ ann, σ1 = overpaint (data r0) ann σ0 ∧ label_orgs ann = []).
  { intros σ1. destruct fs as [| fp fs'].
    - intros [= <-]. exists []. by rewrite overpaint_nil.
    - apply drawFeatures_Ret. }
  destruct (match fs with [] => Ret σ0 | _ :: _ => _ end) as [σ1 | |]; simpl; try discriminate.
  destruct (Hfeat σ1 eq_refl) as (ann1 & -> & Hann1).
  destruct (drawPoses st ps 0 r0 _) as [σ2 | |] eqn:Hps; simpl; try discriminate.
  intros [= <- <-]. apply drawPoses_Ret in Hps as (Hlen & ann2 & -> & Hann2).
  split; [destruct Hlen as [-> | Hlen]; simpl in *; lia |].
  exists c, (ann1 ++ ann2). rewrite overpaint_app, label_orgs_app, Hann1, Hann2.
  repeat split; try done.
  subst σ0. unfold overpaint. apply map_eq; intros k.
  destruct (decide (data r0 = k)) as [<- | Hne].
  - by rewrite lookup_alter_eq, !lookup_insert_eq.
  - by rewrite lookup_alter_ne, !lookup_insert_ne.
Qed.

(** *** The model signals nothing: a drawing call returns or is undefined *)

Lemma no_throw_bind {A B} (m : outcome A) (f : A → outcome B) :
  no_throw m → (∀ a, no_throw (f a)) → no_throw (m ≫= f).
Proof.
  intros Hm Hf e. destruct m as [a | e' | u]; simpl; [apply Hf | | done].
  by destruct (Hm e').
Qed.

Lemma no_throw_fmap {A B} (m : outcome A) (f : A → B) : no_throw m → no_throw (f <$> m).
Proof.
  intros Hm e. destruct m as [a | e' | u]; simpl; [done | | done].
  by destruct (Hm e').
Qed.

Lemma no_throw_Ret {A} (a : A) : no_throw (Ret a).
Proof. by intros e. Qed.

Lemma no_throw_vec_at {A} (v : list A) i : no_throw (vec_at v i).
Proof. intros e. unfold vec_at. by destruct (v !! i). Qed.

Lemma no_throw_buf_at (σ : store) l : no_throw (buf_at σ l).
Proof. intros e. unfold buf_at. by destruct (σ !! l). Qed.

Lemma no_throw_double_to_int d : no_throw (double_to_int d).
Proof.
  intros e. unfold double_to_int. destruct d as [| | | sg m ex]; try done.
  by destruct (_ && _).
Qed.

Ltac no_throw_step :=
  first [ apply no_throw_Ret | apply no_throw_vec_at | apply no_throw_buf_at
        | apply no_throw_double_to_int
        | apply no_throw_fmap | apply no_throw_bind; [| intros ?] ].

Lemma no_throw_paint result cmd σ : no_throw (paint result cmd σ).
Proof. unfold paint. repeat no_throw_step. Qed.

Lemma no_throw_coordsOf st i f : no_throw (coordsOf st i f).
Proof. unfold coordsOf, part. repeat no_throw_step. Qed.

Lemma no_throw_drawSegments fp segs result σ : no_throw (drawSegments fp segs result σ).
Proof.
  revert σ. induction segs as [| [i j] segs IH]; intros σ; simpl; [apply no_throw_Ret |].
  repeat (apply no_throw_bind; [first [apply no_throw_vec_at | apply no_throw_paint] | intros ?]).
  apply IH.
Qed.

Lemma no_throw_drawFeatures fs result σ : no_throw (drawFeatures fs result σ).
Proof.
  revert σ. induction fs as [| fp fs IH]; intros σ; [apply no_throw_Ret |].
  change (drawFeatures (fp :: fs) result σ)
    with (drawSegments fp feature_segments result σ ≫= drawFeatures fs result).
  apply no_throw_bind; [apply no_throw_drawSegments | apply IH].
Qed.

Lemma no_throw_drawPose st p i result σ : no_throw (drawPose st p i result σ).
Proof.
  unfold drawPose, label_text, cm_text.
  repeat first [ apply no_throw_paint | apply no_throw_coordsOf | no_throw_step ].
Qed.

Lemma no_throw_drawPoses st ps i result σ : no_throw (drawPoses st ps i result σ).
Proof.
  revert i σ. induction ps as [| p ps IH]; intros i σ; simpl; [apply no_throw_Ret |].
  apply no_throw_bind; [apply no_throw_drawPose | intros σ'; apply IH].
Qed.

Lemma no_throw_drawDetections st σ img fs ps : no_throw (drawDetections st σ img fs ps).
Proof.
  unfold drawDetections, Mat_clone.
  apply no_throw_bind; [repeat no_throw_step | intros [σ0 r]].
  apply no_throw_bind; [destruct fs; [apply no_throw_Ret | apply no_throw_drawFeatures] |].
  intros σ1. apply no_throw_bind; [apply no_throw_drawPoses | intros σ2; apply no_throw_Ret].
Qed.

(** [drawDetections] reads of the estimator its camera model and its stored
    shapes, and nothing else. *)
Lemma drawPose_reads st st2 p i result σ :
  focalLength st2 = focalLength st → opticalCenter st2 = opticalCenter st →
  shapes st2 = shapes st →
  drawPose st2 p i result σ = drawPose st p i result σ.
Proof.
  intros Hf [= Hx Hy] Hs. unfold drawPose, coordsOf. by rewrite Hf, Hx, Hy, Hs.
Qed.

Lemma drawPoses_reads st st2 ps i result σ :
  focalLength st2 = focalLength st → opticalCenter st2 = opticalCenter st →
  shapes st2 = shapes st →
  drawPoses st2 ps i result σ = drawPoses st ps i result σ.
Proof.
  intros Hf Hc Hs. revert i σ. induction ps as [| p ps IH]; intros i σ; simpl; [done |].
  rewrite (drawPose_reads st st2) by done.
  destruct (drawPose st p i result σ); simpl; [apply IH | done | done].
Qed.

(** C8, amended: a returning [drawDetections] leaves every buffer of the
    store as it was, that of the base image included, and returns an image
    over a buffer that was not allocated before, holding a copy of the base
    image with the annotations painted over it; landmark lists and poses are
    only read. The result is a function of the arguments together with the
    estimator's focal length, optical centre and stored shapes. *)
Theorem drawDetections_returns_fresh_copy (st : HeadPoseEstimation) (σ : store) (img : Mat)
    (fs : list (list Point)) (ps : list head_pose) (σ' : store) (r : Mat) :
  drawDetections st σ img fs ps = Ret (σ', r) →
  σ !! data r = None
  ∧ (∀ l c, σ !! l = Some c → σ' !! l = Some c)
  ∧ dom σ' = dom σ ∪ {[data r]}
  ∧ cols r = cols img ∧ rows r = rows img
  ∧ (∃ c ann, σ' !! data img = Some c
       ∧ σ' !! data r = Some (mkCanvas (pixels c) (drawn c ++ ann)))
  ∧ (∀ st2, focalLength st2 = focalLength st → opticalCenter st2 = opticalCenter st →
       shapes st2 = shapes st → drawDetections st2 σ img fs ps = Ret (σ', r)).
Proof.
  intros Hd.
  destruct (drawDetections_Ret _ _ _ _ _ _ _ Hd)
    as (_ & c & ann & Hc & Hfresh & -> & Hcols & Hrows & _).
  split; [done |]. split.
  { intros l c' Hl. rewrite lookup_insert_ne; [done | congruence]. }
  split; [rewrite dom_insert_L; apply (comm_L (∪)) |].
  split; [done |]. split; [done |]. split.
  { exists c, ann. rewrite lookup_insert_eq.
    split; [| done]. rewrite lookup_insert_ne; [done | congruence]. }
  intros st2 Hf Hoc Hs. rewrite <- Hd. unfold drawDetections.
  destruct (Mat_clone σ img) as [[σ0 r0] | |]; simpl; try done.
  destruct (match fs with [] => _ | _ :: _ => _ end); simpl; try done.
  by rewrite (drawPoses_reads st st2).
Qed.

(** C9: the label of pose number [i] is painted at the sellion of the
    stored shape number [i], whatever the landmark lists passed; so a
    returning call has at most as many poses as there are stored shapes,
    and with more poses than stored shapes the call is undefined: the
    lookup of the label position indexes the stored shapes out of bounds. *)
Theorem draw_labels_from_stored_shapes (st : HeadPoseEstimation) (σ : store) (img : Mat)
    (fs : list (list Point)) (ps : list head_pose) :
  (∀ σ' r, drawDetections st σ img fs ps = Ret (σ', r) →
     (length ps ≤ length (shapes st))%nat
     ∧ ∃ c ann, σ !! data img = Some c
         ∧ σ' !! data r = Some (mkCanvas (pixels c) (drawn c ++ ann))
         ∧ label_orgs ann =
             (λ d, Point_of_Point2f (landmark d SELLION)) <$> take (length ps) (shapes st))
  ∧ (∀ i, (length (shapes st) ≤ i)%nat → coordsOf st i SELLION = UB OutOfBounds)
  ∧ ((length (shapes st) < length ps)%nat → ∃ u, drawDetections st σ img fs ps = UB u).
Proof.
  split; [| split].
  - intros σ' r Hd.
    destruct (drawDetections_Ret _ _ _ _ _ _ _ Hd)
      as (Hlen & c & ann & Hc & Hfresh & -> & _ & _ & Hann).
    split; [done |]. exists c, ann. by rewrite lookup_insert_eq.
  - intros i Hi. by apply coordsOf_out_of_range.
  - intros Hlen. destruct (drawDetections st σ img fs ps) as [[σ' r] | e | u] eqn:Hd.
    + apply drawDetections_Ret in Hd as [Hle _]. lia.
    + by destruct (no_throw_drawDetections st σ img fs ps e).
    + by exists u.
Qed.
End DrawProperties.

(** ** What [update] returns and stores *)

Section UpdateProperties.
Context `{Collaborators}.

Lemma mapM_cases {A B} (f : A → outcome B) (xs : list A) (u : ub) :
  (∀ x, x ∈ xs → (∃ y, f x = Ret y) ∨ f x = UB u) →
  (∃ l, mapM f xs = Ret l) ∨ mapM f xs = UB u.
Proof.
  induction xs as [| x xs IH]; intros Hf; simpl.
  - left. by exists [].
  - destruct (Hf x) as [[y Hy] | Hu]; [left | | rewrite Hu; by right].
    rewrite Hy. simpl.
    destruct IH as [[l Hl] | Hu]; [intros z Hz; apply Hf; by right | |].
    + rewrite Hl. left. by eexists.
    + rewrite Hu. by right.
Qed.

Lemma mapM_not_Ret {A B} (f : A → outcome B) (xs : list A) (x : A) (l : list B) :
  x ∈ xs → (∀ y, f x ≠ Ret y) → mapM f xs ≠ Ret l.
Proof.
  intros Hx Hf Hl. apply mapM_Ret in Hl.
  apply list_elem_of_lookup in Hx as [i Hi].
  destruct (Forall2_lookup_l _ _ _ _ _ Hl Hi) as (y & _ & Hy). by apply (Hf y).
Qed.

(** The inner loop of [update] over the parts [0 .. n-1] of one shape. *)
Lemma landmarks_Ret d n fl :
  mapM (λ i, toCv <$> part d i) (seq 0 n) = Ret fl
  ↔ (n ≤ length (parts d))%nat ∧ fl = toCv <$> take n (parts d).
Proof.
  rewrite mapM_Ret. split.
  - intros Hall. pose proof (Forall2_length _ _ _ Hall) as Hlen. rewrite length_seq in Hlen.
    assert (Hi : ∀ i, (i < n)%nat →
                 ∃ p, parts d !! i = Some p ∧ fl !! i = Some (toCv p)).
    { intros i Hlt.
      destruct (Forall2_lookup_l _ _ _ i i Hall) as (y & Hy & Hf).
      { by rewrite lookup_seq. }
      unfold part, vec_at in Hf. destruct (parts d !! i) as [p |]; [| discriminate].
      injection Hf as <-. by exists p. }
    assert (Hn : (n ≤ length (parts d))%nat).
    { destruct n as [| n]; [lia |].
      destruct (Hi n) as (p & Hp & _); [lia |].
      apply lookup_lt_Some in Hp. lia. }
    split; [done |]. apply list_eq; intros i.
    rewrite list_lookup_fmap. destruct (decide (i < n)%nat) as [Hlt | Hge].
    + destruct (Hi i Hlt) as (p & Hp & ->). by rewrite lookup_take_lt, Hp.
    + rewrite lookup_ge_None_2 by lia. rewrite lookup_take_ge by lia. done.
  - intros [Hn ->]. apply Forall2_same_length_lookup_2.
    + rewrite length_seq, length_fmap, length_take. lia.
    + intros i x y Hx Hy. apply lookup_seq in Hx as [-> Hlt]. simpl.
      rewrite list_lookup_fmap in Hy. rewrite lookup_take_lt in Hy by done.
      unfold part, vec_at. destruct (parts d !! i) as [p |]; [| discriminate].
      by injection Hy as <-.
Qed.

Lemma landmarks_cases d n :
  (∃ fl, mapM (λ i, toCv <$> part d i) (seq 0 n) = Ret fl)
  ∨ mapM (λ i, toCv <$> part d i) (seq 0 n) = UB OutOfBounds.
Proof.
  apply mapM_cases. intros i _. unfold part, vec_at.
  destruct (parts d !! i) as [p |]; [left; by eexists | by right].
Qed.

Lemma all_landmarks_Ret shs feats :
  mapM (λ d, mapM (λ i, toCv <$> part d i) (seq 0 68)) shs = Ret feats
  ↔ Forall (λ d, (68 ≤ length (parts d))%nat) shs ∧ feats = landmarks_of <$> shs.
Proof.
  rewrite mapM_Ret. split.
  - intros Hall. induction Hall as [| d fl shs feats Hd _ [IH1 IH2]]; [done |].
    apply landmarks_Ret in Hd as [Hn ->]. split; [by constructor |].
    rewrite fmap_cons. by rewrite IH2.
  - intros [Hall ->]. induction Hall as [| d shs Hd _ IH]; [constructor |].
    rewrite fmap_cons. constructor; [| exact IH]. by apply landmarks_Ret.
Qed.

Lemma all_landmarks_cases shs :
  (∃ feats, mapM (λ d, mapM (λ i, toCv <$> part d i) (seq 0 68)) shs = Ret feats)
  ∨ mapM (λ d, mapM (λ i, toCv <$> part d i) (seq 0 68)) shs = UB OutOfBounds.
Proof. apply mapM_cases. intros d _. apply landmarks_cases. Qed.

Lemma update_unfold st σ image c :
  σ !! data image = Some c →
  update st σ image =
    (λ feats,
       (mkHPE (focalLength st)
          (if F32.eqb (opticalCenterX st) (F32.of_Z (-1))
           then F32.of_Z (cols image ÷ 2) else opticalCenterX st)
          (if F32.eqb (opticalCenterX st) (F32.of_Z (-1))
           then F32.of_Z (rows image ÷ 2) else opticalCenterY st)
          (Some image)
          (detector (mkView (cols image) (rows image) c))
          (pose_model (mkView (cols image) (rows image) c)
             <$> detector (mkView (cols image) (rows image) c)),
        feats))
    <$> mapM (λ d, mapM (λ i, toCv <$> part d i) (seq 0 68))
          (pose_model (mkView (cols image) (rows image) c)
             <$> detector (mkView (cols image) (rows image) c)).
Proof.
  intros Hc. unfold update, buf_at. rewrite Hc.
  destruct (F32.eqb _ _); simpl;
    by destruct (mapM _ (pose_model _ <$> detector _)).
Qed.

Lemma update_Ret_shapes st σ image st' feats :
  update st σ image = Ret (st', feats) →
  Forall (λ d, (68 ≤ length (parts d))%nat) (shapes st')
  ∧ feats = landmarks_of <$> shapes st'
  ∧ length (shapes st') = length (faces st')
  ∧ current_image st' = Some image.
Proof.
  intros Hu. destruct (σ !! data image) as [c |] eqn:Hc.
  2:{ unfold update, buf_at in Hu. rewrite Hc in Hu. by destruct (F32.eqb _ _). }
  rewrite (update_unfold st σ image c Hc) in Hu.
  destruct (mapM _ _) as [fs | |] eqn:Hm; try discriminate.
  injection Hu as <- <-. apply all_landmarks_Ret in Hm as [Hall ->]. simpl.
  by rewrite length_fmap.
Qed.

(** X1 (update): a returning [update] gives one landmark list per detected
    face, in the order of the stored faces and shapes; each list has
    exactly 68 points, the parts 0 to 67 of the stored shape converted by
    [toCv], and the frame is recorded as the current image. *)
Theorem update_landmarks (st : HeadPoseEstimation) (σ : store) (image : Mat)
    (st' : HeadPoseEstimation) (feats : list (list Point)) :
  update st σ image = Ret (st', feats) →
  length feats = length (faces st')
  ∧ length (shapes st') = length (faces st')
  ∧ Forall (λ fl, length fl = 68%nat) feats
  ∧ Forall (λ d, (68 ≤ length (parts d))%nat) (shapes st')
  ∧ feats = (λ d, toCv <$> take 68 (parts d)) <$> shapes st'
  ∧ current_image st' = Some image.
Proof.
  intros (Hall & -> & Hlen & Himg)%update_Ret_shapes.
  rewrite length_fmap. split; [done |]. split; [done |]. split; [| by repeat split].
  apply Forall_fmap. eapply Forall_impl; [exact Hall |].
  intros d Hd. unfold compose, landmarks_of. rewrite length_fmap, length_take.
  cbv beta in Hd. lia.
Qed.

(** X2 (update): with the pixel buffer allocated, [update] returns exactly
    when every predicted shape has at least 68 parts; when one has fewer
    (a predictor with another landmark layout), the unchecked [d.part(i)]
    reads out of bounds. Without the buffer the call is undefined too. *)
Theorem update_defined (st : HeadPoseEstimation) (σ : store) (image : Mat) :
  (σ !! data image = None → update st σ image = UB DanglingBuffer)
  ∧ ∀ c, σ !! data image = Some c →
      let current := mkView (cols image) (rows image) c in
      let shs := pose_model current <$> detector current in
      (Forall (λ d, (68 ≤ length (parts d))%nat) shs →
         ∃ st', update st σ image = Ret (st', (λ d, toCv <$> take 68 (parts d)) <$> shs))
      ∧ (Exists (λ d, (length (parts d) < 68)%nat) shs →
         update st σ image = UB OutOfBounds).
Proof.
  split.
  - intros Hc. unfold update, buf_at. rewrite Hc. by destruct (F32.eqb _ _).
  - intros c Hc current shs. rewrite (update_unfold st σ image c Hc). fold current shs.
    split.
    + intros Hall. eexists.
      by rewrite (proj2 (all_landmarks_Ret shs _) (conj Hall eq_refl)).
    + intros Hex. destruct (all_landmarks_cases shs) as [[feats Hm] | ->]; [| done].
      apply all_landmarks_Ret in Hm as [Hall _].
      apply Exists_exists in Hex as (d & Hd & Hlt).
      rewrite Forall_forall in Hall. specialize (Hall d Hd). lia.
Qed.

(** X3 (update): the detections of a frame replace the earlier ones; the
    returned landmarks, the stored faces and shapes and the current image
    are the same whatever the estimator held before the call. *)
Theorem update_replaces_detections (st1 st2 : HeadPoseEstimation) (σ : store) (image : Mat)
    (st1' : HeadPoseEstimation) (feats : list (list Point)) :
  update st1 σ image = Ret (st1', feats) →
  ∃ st2', update st2 σ image = Ret (st2', feats)
    ∧ faces st2' = faces st1' ∧ shapes st2' = shapes st1'
    ∧ current_image st2' = current_image st1'
    ∧ focalLength st2' = focalLength st2.
Proof.
  intros Hu. destruct (σ !! data image) as [c |] eqn:Hc.
  2:{ unfold update, buf_at in Hu. rewrite Hc in Hu. by destruct (F32.eqb _ _). }
  rewrite (update_unfold st1 σ image c Hc) in Hu.
  rewrite (update_unfold st2 σ image c Hc).
  destruct (mapM _ _) as [fs | |]; try discriminate.
  injection Hu as <- <-. eexists. split; [reflexivity |]. done.
Qed.
End UpdateProperties.

(** ** When [pose] and [poses] are defined *)

Section PoseDefined.
Context `{Collaborators}.

Lemma coordsOf_cases st i f :
  (∃ p, coordsOf st i f = Ret p) ∨ coordsOf st i f = UB OutOfBounds.
Proof.
  unfold coordsOf, part, vec_at. destruct (shapes st !! i) as [d |]; simpl; [| by right].
  destruct (parts d !! feature_index f); simpl; [left; by eexists | by right].
Qed.

Lemma coordsOf_Ret_part st i f p :
  coordsOf st i f = Ret p →
  ∃ d, shapes st !! i = Some d ∧ (feature_index f < length (parts d))%nat.
Proof.
  unfold coordsOf, part, vec_at. destruct (shapes st !! i) as [d |]; simpl; [| discriminate].
  destruct (parts d !! feature_index f) eqn:Hp; simpl; [| discriminate].
  intros _. exists d. split; [done |]. by apply lookup_lt_Some in Hp.
Qed.

Lemma pose_solve_call_cases st i :
  (∃ call, pose_solve_call st i = Ret call) ∨ pose_solve_call st i = UB OutOfBounds.
Proof.
  unfold pose_solve_call.
  repeat match goal with
  | |- context [coordsOf st i ?f ≫= _] =>
      destruct (coordsOf_cases st i f) as [[? ->] | ->]; simpl; [| by right]
  end.
  left. by eexists.
Qed.

Lemma pose_cases st i : (∃ m, pose st i = Ret m) ∨ pose st i = UB OutOfBounds.
Proof.
  rewrite pose_unfold. destruct (pose_solve_call_cases st i) as [[call ->] | ->];
    [left; by eexists | by right].
Qed.

Lemma pose_solve_call_Ret_coords st i call :
  pose_solve_call st i = Ret call → ∀ f, ∃ p, coordsOf st i f = Ret p.
Proof.
  unfold pose_solve_call. intros Hcall.
  repeat match type of Hcall with
  | context [coordsOf st i ?f ≫= _] =>
      destruct (coordsOf st i f) eqn:?; simpl in Hcall; [| discriminate ..]
  end.
  intros f. destruct f; by eexists.
Qed.

Lemma pose_Ret_has_landmarks st i m : pose st i = Ret m → has_landmarks st i.
Proof.
  rewrite pose_unfold. destruct (pose_solve_call st i) as [call | |] eqn:Hcall;
    [| discriminate ..].
  intros _. pose proof (pose_solve_call_Ret_coords st i call Hcall) as Hall.
  destruct (Hall SELLION) as (p & (d & Hd & _)%coordsOf_Ret_part).
  exists d. split; [done |]. intros f.
  destruct (Hall f) as (q & (d' & Hd' & Hlt)%coordsOf_Ret_part).
  rewrite Hd in Hd'. by injection Hd' as <-.
Qed.

Lemma has_landmarks_pose_Ret st i :
  has_landmarks st i → ∃ m, pose st i = Ret m.
Proof.
  intros (d & Hd & Hparts). rewrite pose_unfold.
  rewrite (pose_solve_call_stored st i d Hd Hparts). by eexists.
Qed.

Lemma mapM_all_Ret {A B} (f : A → outcome B) (xs : list A) :
  (∀ x, x ∈ xs → ∃ y, f x = Ret y) → ∃ l, mapM f xs = Ret l ∧ length l = length xs.
Proof.
  induction xs as [| x xs IH]; intros Hf; simpl.
  - by exists [].
  - destruct (Hf x) as [y Hy]; [by left |]. rewrite Hy. simpl.
    destruct IH as (l & -> & Hl); [intros z Hz; apply Hf; by right |].
    exists (y :: l). simpl. by rewrite Hl.
Qed.

Lemma run_invariant (P : HeadPoseEstimation → Prop) :
  (∀ st req st' calls, P st → serve st req = Ret (st', calls) → P st') →
  ∀ reqs st st' calls, P st → run st reqs = Ret (st', calls) → P st'.
Proof.
  intros Hstep reqs. induction reqs as [| req reqs IH]; intros st st' calls HP; simpl.
  - by intros [= <- <-].
  - destruct (serve st req) as [[st1 calls1] | |] eqn:Hs; simpl; try discriminate.
    destruct (run st1 reqs) as [[st2 calls2] | |] eqn:Hr; simpl; try discriminate.
    intros [= <- <-]. eapply IH; [| exact Hr]. eapply Hstep; [exact HP | exact Hs].
Qed.

Lemma reachable_shapes_complete st :
  reachable st →
  length (shapes st) = length (faces st)
  ∧ Forall (λ d, (68 ≤ length (parts d))%nat) (shapes st).
Proof.
  intros (focal & reqs & calls & Hrun).
  eapply (run_invariant (λ st, length (shapes st) = length (faces st)
                               ∧ Forall (λ d, (68 ≤ length (parts d))%nat) (shapes st)));
    [| | exact Hrun]; [| by split].
  clear. intros st req st' calls HP Hs. destruct req as [σ image | i | | σ image fs ps].
  - simpl in Hs. destruct (update st σ image) as [[st1 feats] | |] eqn:Hu; try discriminate.
    injection Hs as <- <-. apply update_Ret_shapes in Hu as (Hall & _ & Hlen & _). done.
  - by rewrite (serve_not_update st (CallPose i) st' calls (λ x, x) Hs).
  - by rewrite (serve_not_update st CallPoses st' calls (λ x, x) Hs).
  - by rewrite (serve_not_update st (CallDraw σ image fs ps) st' calls (λ x, x) Hs).
Qed.

(** X4 (pose): [pose] returns for a face index exactly when a shape is
    stored at that index and has a part at the index of each of the nine
    features; in every other case the unchecked reads make the call
    undefined (out of bounds), and nothing is thrown. *)
Theorem pose_defined (st : HeadPoseEstimation) (face_idx : nat) :
  ((∃ m, pose st face_idx = Ret m) ↔ has_landmarks st face_idx)
  ∧ (¬ has_landmarks st face_idx → pose st face_idx = UB OutOfBounds).
Proof.
  split; [split |].
  - intros [m Hm]. by apply pose_Ret_has_landmarks in Hm.
  - apply has_landmarks_pose_Ret.
  - intros Hno. destruct (pose_cases st face_idx) as [[m Hm] | Hu]; [| done].
    by apply pose_Ret_has_landmarks in Hm.
Qed.

(** X5 (pose): the pose of a face is computed from the stored shape of that
    face and the camera model alone: two estimators that agree on the focal
    length, the optical centre and that one shape give the same result,
    whatever their other faces, their face rectangles, their current image
    and the position of the shape in the vector. *)
Theorem pose_reads_one_shape (st1 st2 : HeadPoseEstimation) (i j : nat) :
  shapes st1 !! i = shapes st2 !! j →
  focalLength st1 = focalLength st2 →
  opticalCenter st1 = opticalCenter st2 →
  pose st1 i = pose st2 j.
Proof.
  intros Hsh Hf [= Hx Hy].
  assert (Hc : ∀ f, coordsOf st1 i f = coordsOf st2 j f).
  { intros f. unfold coordsOf, vec_at. by rewrite Hsh. }
  unfold pose, pose_solve_call, projection_of. by rewrite !Hc, Hf, Hx, Hy.
Qed.

(** X6 (update, pose, poses): when the nine feature indices of the header
    are below 68, every estimator a run of calls reaches holds, for each of
    its faces, a shape with all 68 parts; [pose] returns exactly for the
    indices below the number of faces, and [poses] returns one pose per
    face. *)
Theorem poses_defined_on_reachable (st : HeadPoseEstimation) :
  (∀ f, (feature_index f < 68)%nat) →
  reachable st →
  Forall (λ d, (68 ≤ length (parts d))%nat) (shapes st)
  ∧ (∀ i, (∃ m, pose st i = Ret m) ↔ (i < length (faces st))%nat)
  ∧ ∃ l, poses st = Ret l ∧ length l = length (faces st).
Proof.
  intros H68 (Hlen & Hall)%reachable_shapes_complete.
  assert (Hland : ∀ i, (i < length (faces st))%nat → has_landmarks st i).
  { intros i Hi. rewrite <- Hlen in Hi. apply lookup_lt_is_Some in Hi as [d Hd].
    exists d. split; [done |]. intros f.
    rewrite Forall_forall in Hall. specialize (Hall d (list_elem_of_lookup_2 _ _ _ Hd)).
    specialize (H68 f). lia. }
  split; [done |]. split.
  - intros i. split.
    + intros [m (d & Hd & _)%pose_Ret_has_landmarks].
      apply lookup_lt_Some in Hd. lia.
    + intros Hi. by apply has_landmarks_pose_Ret, Hland.
  - unfold poses. destruct (mapM_all_Ret (pose st) (seq 0 (length (faces st)))) as (l & Hl & Hn).
    + intros i Hi%elem_of_seq. apply has_landmarks_pose_Ret, Hland. lia.
    + exists l. by rewrite length_seq in Hn.
Qed.

(** X7 (update, coordsOf): the landmark lists [update] returns are the
    points [pose] reads afterwards: for a feature whose index is below 68,
    [coordsOf] on the updated estimator returns, as a [Point2f], the point
    at that index of the returned list of the same face. *)
Theorem update_landmarks_feed_pose (st : HeadPoseEstimation) (σ : store) (image : Mat)
    (st' : HeadPoseEstimation) (feats : list (list Point))
    (j : nat) (fl : list Point) (f : FACIAL_FEATURE) :
  update st σ image = Ret (st', feats) →
  feats !! j = Some fl →
  (feature_index f < 68)%nat →
  ∃ p, fl !! feature_index f = Some p ∧ coordsOf st' j f = Ret (Point2f_of_Point p).
Proof.
  intros (Hall & -> & _ & _)%update_Ret_shapes Hj Hf.
  rewrite list_lookup_fmap in Hj. destruct (shapes st' !! j) as [d |] eqn:Hd; [| discriminate].
  injection Hj as <-.
  rewrite Forall_forall in Hall. specialize (Hall d (list_elem_of_lookup_2 _ _ _ Hd)).
  destruct (lookup_lt_is_Some_2 (parts d) (feature_index f)) as [q Hq]; [lia |].
  exists (toCv q). unfold landmarks_of.
  rewrite list_lookup_fmap, lookup_take_lt, Hq by done. split; [done |].
  unfold coordsOf, part, vec_at. by rewrite Hd; simpl; rewrite Hq.
Qed.
End PoseDefined.

(** ** What [drawDetections] paints and when it is defined *)

Section DrawDefined.
Context `{Collaborators}.

Lemma overpaint_allocated l ann σ : is_Some (σ !! l) → is_Some (overpaint l ann σ !! l).
Proof. intros [c Hc]. unfold overpaint. rewrite lookup_alter_eq, Hc. by eexists. Qed.

Lemma paint_allocated result cmd σ :
  is_Some (σ !! data result) → paint result cmd σ = Ret (overpaint (data result) [cmd] σ).
Proof.
  intros [c Hc]. destruct (paint result cmd σ) as [σ' | |] eqn:Hp.
  - by apply paint_Ret in Hp as ->.
  - unfold paint, buf_at in Hp. by rewrite Hc in Hp.
  - unfold paint, buf_at in Hp. by rewrite Hc in Hp.
Qed.

Lemma drawSegments_ok fp segs result σ :
  is_Some (σ !! data result) →
  Forall (λ s, (s.1 < length fp)%nat ∧ (s.2 < length fp)%nat) segs →
  drawSegments fp segs result σ = Ret (overpaint (data result) (segment_lines fp segs) σ).
Proof.
  revert σ. induction segs as [| [i j] segs IH]; intros σ Hσ Hall.
  - simpl. by rewrite overpaint_nil.
  - apply Forall_cons in Hall as [[Hi Hj] Hall]. simpl in Hi, Hj.
    destruct (lookup_lt_is_Some_2 fp i Hi) as [p Hp].
    destruct (lookup_lt_is_Some_2 fp j Hj) as [q Hq].
    simpl. unfold vec_at. rewrite Hp, Hq. simpl.
    rewrite (paint_allocated result _ σ Hσ). simpl.
    rewrite IH; [| by apply overpaint_allocated | done].
    by rewrite overpaint_app.
Qed.

Lemma drawSegments_short fp segs result σ :
  is_Some (σ !! data result) →
  Exists (λ s, (length fp ≤ s.1)%nat ∨ (length fp ≤ s.2)%nat) segs →
  drawSegments fp segs result σ = UB OutOfBounds.
Proof.
  revert σ. induction segs as [| [i j] segs IH]; intros σ Hσ Hex.
  - by apply Exists_nil in Hex.
  - simpl. unfold vec_at.
    destruct (fp !! i) as [p |] eqn:Hp; simpl; [| done].
    destruct (fp !! j) as [q |] eqn:Hq; simpl; [| done].
    rewrite (paint_allocated result _ σ Hσ). simpl.
    apply Exists_cons in Hex as [[Hi | Hj] | Hex]; simpl in *.
    + apply lookup_lt_Some in Hp. lia.
    + apply lookup_lt_Some in Hq. lia.
    + apply IH; [by apply overpaint_allocated | done].
Qed.

Lemma feature_segments_range :
  Forall (λ s, (s.1 < 68)%nat ∧ (s.2 < 68)%nat) feature_segments.
Proof.
  match goal with |- ?P => apply (bool_decide_eq_true_1 P) end. vm_compute. reflexivity.
Qed.

Lemma feature_segments_last : feature_segments !! 63%nat = Some (67, 66)%nat.
Proof. reflexivity. Qed.

Lemma feature_segments_length : length feature_segments = 65%nat.
Proof. reflexivity. Qed.

Lemma drawFeatures_cons fp fs result σ :
  drawFeatures (fp :: fs) result σ
  = drawSegments fp feature_segments result σ ≫= drawFeatures fs result.
Proof. reflexivity. Qed.

Lemma drawFeatures_ok fs result σ :
  is_Some (σ !! data result) →
  Forall (λ fl, (68 ≤ length fl)%nat) fs →
  drawFeatures fs result σ
  = Ret (overpaint (data result) (concat (feature_lines <$> fs)) σ).
Proof.
  revert σ. induction fs as [| fp fs IH]; intros σ Hσ Hall.
  - simpl. by rewrite overpaint_nil.
  - apply Forall_cons in Hall as [Hfp Hall]. rewrite drawFeatures_cons.
    rewrite drawSegments_ok; [| done |].
    2:{ eapply Forall_impl; [exact feature_segments_range |]. simpl. lia. }
    simpl. rewrite IH; [| by apply overpaint_allocated | done].
    by rewrite overpaint_app.
Qed.

Lemma drawFeatures_short fs result σ :
  is_Some (σ !! data result) →
  Exists (λ fl, (length fl < 68)%nat) fs →
  drawFeatures fs result σ = UB OutOfBounds.
Proof.
  revert σ. induction fs as [| fp fs IH]; intros σ Hσ Hex.
  - by apply Exists_nil in Hex.
  - rewrite drawFeatures_cons.
    destruct (decide (68 ≤ length fp)%nat) as [Hfp | Hfp].
    + rewrite drawSegments_ok; [| done |].
      2:{ eapply Forall_impl; [exact feature_segments_range |]. simpl. lia. }
      simpl. apply IH; [by apply overpaint_allocated |].
      apply Exists_cons in Hex as [Hlt | Hex]; [lia | done].
    + rewrite drawSegments_short; [done | done |].
      apply Exists_exists. exists (67, 66)%nat. split; [| simpl; lia].
      eapply list_elem_of_lookup_2. exact feature_segments_last.
Qed.

Lemma drawFeatures_branch (fs : list (list Point)) result σ :
  match fs with
  | [] => Ret σ
  | _ :: _ => drawFeatures fs result σ
  end = drawFeatures fs result σ.
Proof. by destruct fs. Qed.

(** What a returning [drawPose] did. *)
Lemma drawPose_Ret_commands st p i result σ σ' :
  drawPose st p i result σ = Ret σ' →
  ∃ a0 a1 a2 a3 rest text org,
    projected_axes st p = a0 :: a1 :: a2 :: a3 :: rest
    ∧ label_text p = Ret text
    ∧ coordsOf st i SELLION = Ret org
    ∧ σ' = overpaint (data result) (pose_commands a0 a1 a2 a3 text org) σ.
Proof.
  unfold drawPose.
  change (projectPoints axes _ _ _) with (projected_axes st p).
  destruct (projected_axes st p) as [| a0 [| a1 [| a2 [| a3 rest]]]]; simpl;
    try discriminate.
  destruct (paint result _ σ) as [σ1 | |] eqn:H1; simpl; try discriminate.
  destruct (paint result _ σ1) as [σ2 | |] eqn:H2; simpl; try discriminate.
  destruct (paint result _ σ2) as [σ3 | |] eqn:H3; simpl; try discriminate.
  destruct (label_text p) as [text | |]; simpl; try discriminate.
  destruct (coordsOf st i SELLION) as [org | |] eqn:Hc; simpl; try discriminate.
  intros H4.
  apply paint_Ret in H1 as ->. apply paint_Ret in H2 as ->.
  apply paint_Ret in H3 as ->. apply paint_Ret in H4 as ->.
  exists a0, a1, a2, a3, rest, text, org. by rewrite !overpaint_app.
Qed.

Lemma drawPose_ok st p i result σ a0 a1 a2 a3 rest text org :
  is_Some (σ !! data result) →
  projected_axes st p = a0 :: a1 :: a2 :: a3 :: rest →
  label_text p = Ret text →
  coordsOf st i SELLION = Ret org →
  drawPose st p i result σ
  = Ret (overpaint (data result) (pose_commands a0 a1 a2 a3 text org) σ).
Proof.
  intros Hσ Hax Htext Horg. unfold drawPose.
  change (projectPoints axes _ _ _) with (projected_axes st p).
  rewrite Hax, Htext, Horg. simpl.
  rewrite (paint_allocated result _ σ Hσ). simpl.
  rewrite paint_allocated by by apply overpaint_allocated. simpl.
  rewrite paint_allocated by by do 2 apply overpaint_allocated. simpl.
  rewrite paint_allocated by by do 3 apply overpaint_allocated.
  by rewrite !overpaint_app.
Qed.

Lemma drawPoses_Ret_blocks st ps i result σ σ' :
  drawPoses st ps i result σ = Ret σ' →
  ∃ blocks, σ' = overpaint (data result) (concat blocks) σ
    ∧ length blocks = length ps
    ∧ ∀ k p, ps !! k = Some p → ∃ blk, blocks !! k = Some blk ∧ pose_block st (i + k) p blk.
Proof.
  revert i σ. induction ps as [| p ps IH]; intros i σ; simpl.
  - intros [= <-]. exists []. rewrite overpaint_nil. by repeat split.
  - destruct (drawPose st p i result σ) as [σ1 | |] eqn:Hp; simpl; try discriminate.
    intros (blocks & -> & Hlen & Hall)%IH.
    apply drawPose_Ret_commands in Hp
      as (a0 & a1 & a2 & a3 & rest & text & org & Hax & Htext & Horg & ->).
    exists (pose_commands a0 a1 a2 a3 text org :: blocks).
    rewrite overpaint_app. split; [done |]. split; [simpl; by rewrite Hlen |].
    intros [| k] q Hq; simpl in Hq.
    + injection Hq as <-. eexists. split; [reflexivity |].
      rewrite Nat.add_0_r. by exists a0, a1, a2, a3, rest, text, org.
    + destruct (Hall k q Hq) as (blk & Hblk & Hb). exists blk. split; [done |].
      by replace (i + S k)%nat with (S i + k)%nat by lia.
Qed.

Lemma drawPoses_ok st ps i result σ :
  is_Some (σ !! data result) →
  (∀ k p, ps !! k = Some p →
     (4 ≤ length (projected_axes st p))%nat
     ∧ returns (label_text p) ∧ returns (coordsOf st (i + k) SELLION)) →
  ∃ ann, drawPoses st ps i result σ = Ret (overpaint (data result) ann σ).
Proof.
  revert i σ. induction ps as [| p ps IH]; intros i σ Hσ Hall; simpl.
  - exists []. by rewrite overpaint_nil.
  - destruct (Hall 0%nat p eq_refl) as (Hax & Htext & Horg).
    destruct (projected_axes st p) as [| a0 [| a1 [| a2 [| a3 rest]]]] eqn:Hpa;
      simpl in Hax; try lia.
    destruct (label_text p) as [text | |] eqn:Ht; try done.
    rewrite Nat.add_0_r in Horg.
    destruct (coordsOf st i SELLION) as [org | |] eqn:Ho; try done.
    rewrite (drawPose_ok st p i result σ a0 a1 a2 a3 rest text org Hσ Hpa Ht Ho). simpl.
    destruct (IH (S i) (overpaint (data result) (pose_commands a0 a1 a2 a3 text org) σ))
      as [ann Hann].
    + by apply overpaint_allocated.
    + intros k q Hq. replace (S i + k)%nat with (i + S k)%nat by lia. by apply Hall.
    + rewrite Hann, overpaint_app. by eexists.
Qed.

Lemma drawDetections_unfold st σ img fs ps c :
  σ !! data img = Some c →
  drawDetections st σ img fs ps =
    let r := mkMat (cols img) (rows img) (fresh (dom σ)) in
    σ1 ← drawFeatures fs r (<[fresh (dom σ) := c]> σ);
    σ2 ← drawPoses st ps 0 r σ1;
    Ret (σ2, r).
Proof.
  intros Hc. unfold drawDetections, Mat_clone, buf_at. rewrite Hc. simpl.
  by rewrite drawFeatures_branch.
Qed.

Lemma overpaint_insert l c ann (σ : store) :
  overpaint l ann (<[l := c]> σ) = <[l := mkCanvas (pixels c) (drawn c ++ ann)]> σ.
Proof.
  unfold overpaint. apply map_eq; intros k. destruct (decide (l = k)) as [<- | Hne].
  - by rewrite lookup_alter_eq, !lookup_insert_eq.
  - by rewrite lookup_alter_ne, !lookup_insert_ne.
Qed.

(** A returning [drawDetections], command by command. *)
Lemma drawDetections_Ret_blocks st σ img fs ps σ' r :
  drawDetections st σ img fs ps = Ret (σ', r) →
  ∃ c blocks, σ !! data img = Some c
    ∧ Forall (λ fl, (68 ≤ length fl)%nat) fs
    ∧ σ' = <[data r := mkCanvas (pixels c)
                         (drawn c ++ concat (feature_lines <$> fs) ++ concat blocks)]> σ
    ∧ length blocks = length ps
    ∧ ∀ k p, ps !! k = Some p → ∃ blk, blocks !! k = Some blk ∧ pose_block st k p blk.
Proof.
  intros Hd. destruct (σ !! data img) as [c |] eqn:Hc.
  2:{ unfold drawDetections, Mat_clone, buf_at in Hd. by rewrite Hc in Hd. }
  rewrite (drawDetections_unfold st σ img fs ps c Hc) in Hd. cbv zeta in Hd.
  set (r0 := mkMat (cols img) (rows img) (fresh (dom σ))) in *.
  assert (Hσ0 : is_Some (<[fresh (dom σ) := c]> σ !! data r0)).
  { simpl. rewrite lookup_insert_eq. by eexists. }
  destruct (decide (Forall (λ fl, (68 ≤ length fl)%nat) fs)) as [Hall | Hno].
  2:{ apply not_Forall_Exists in Hno; [| intros fl; apply _].
      rewrite (drawFeatures_short fs r0 _ Hσ0) in Hd; [done |].
      eapply Exists_impl; [exact Hno |]. simpl. lia. }
  rewrite (drawFeatures_ok fs r0 _ Hσ0 Hall) in Hd. simpl in Hd.
  destruct (drawPoses st ps 0 r0 _) as [σ2 | |] eqn:Hps; simpl in Hd; try discriminate.
  injection Hd as <- <-.
  apply drawPoses_Ret_blocks in Hps as (blocks & -> & Hlen & Hblocks).
  exists c, blocks. split; [done |]. split; [done |].
  rewrite overpaint_app. simpl. by rewrite overpaint_insert.
Qed.

Lemma pose_commands_colors a0 a1 a2 a3 text org :
  cmd_color <$> pose_commands a0 a1 a2 a3 text org
  = [mkScalar 255 0 0; mkScalar 0 255 0; mkScalar 0 0 255; mkScalar 0 0 255].
Proof. reflexivity. Qed.


Lemma intrinsics_projection st : projection_of st = intrinsics st.
Proof. reflexivity. Qed.
End DrawDefined.

Section DrawTheorems.
Context `{Collaborators}.




(** X9 (drawPose): a returning [drawPose] asks [projectPoints] for the
    image of the origin and of the points (50,0,0), (0,50,0), (0,0,50)
    under the rotation and translation of the given pose and the intrinsic
    matrix [pose] passes to the solver; it paints the segment from the
    origin to the image of (0,0,50) in (255,0,0), to the image of (0,50,0)
    in (0,255,0), to the image of (50,0,0) in (0,0,255), then the label at
    the sellion of the stored shape. *)
Theorem drawPose_commands (st : HeadPoseEstimation) (p : head_pose) (i : nat)
    (result : Mat) (σ σ' : store) :
  drawPose st p i result σ = Ret σ' →
  ∃ a0 a1 a2 a3 rest text d,
    projectPoints
      [p3 0 0 0; p3 50 0 0; p3 0 50 0; p3 0 0 50]
      (Rodrigues_inv (rotation_of p)) (translation_of p) (projection_of st)
    = a0 :: a1 :: a2 :: a3 :: rest
    ∧ label_text p = Ret text
    ∧ shapes st !! i = Some d
    ∧ σ' = overpaint (data result)
             [ DLine (Point_of_Point2f a0) (Point_of_Point2f a3) (mkScalar 255 0 0) 2;
               DLine (Point_of_Point2f a0) (Point_of_Point2f a2) (mkScalar 0 255 0) 2;
               DLine (Point_of_Point2f a0) (Point_of_Point2f a1) (mkScalar 0 0 255) 2;
               DText text (Point_of_Point2f (landmark d SELLION)) F64.lit_0_5
                 (mkScalar 0 0 255) 2 ] σ
    ∧ ∀ j call, pose_solve_call st j = Ret call → cameraMatrix call = projection_of st.
Proof.
  intros (a0 & a1 & a2 & a3 & rest & text & org & Hax & Htext & Horg & ->)%drawPose_Ret_commands.
  apply coordsOf_Ret_landmark in Horg as (d & Hd & ->).
  exists a0, a1, a2, a3, rest, text, d. split; [exact Hax |]. split; [done |].
  split; [done |]. split; [done |].
  intros j call Hcall. unfold pose_solve_call in Hcall.
  repeat match type of Hcall with
  | context [coordsOf st j ?f ≫= _] =>
      destruct (coordsOf st j f); simpl in Hcall; [| discriminate ..]
  end.
  by injection Hcall as <-.
Qed.

(** X10 (drawDetections, drawFeatures): a landmark list with fewer than 68
    points makes [drawDetections] undefined: [drawFeatures] reads
    [feature_points[67]] without a check. *)
Theorem drawDetections_short_features (st : HeadPoseEstimation) (σ : store) (img : Mat)
    (fs : list (list Point)) (ps : list head_pose) (c : canvas) :
  σ !! data img = Some c →
  Exists (λ fl, (length fl < 68)%nat) fs →
  drawDetections st σ img fs ps = UB OutOfBounds.
Proof.
  intros Hc Hex. rewrite (drawDetections_unfold st σ img fs ps c Hc). cbv zeta.
  rewrite drawFeatures_short; [done | | done].
  simpl. rewrite lookup_insert_eq. by eexists.
Qed.

Lemma cm_text_non_finite v : non_finite v → cm_text v = UB FloatToIntOverflow.
Proof. by destruct v as [s | [|] | | s m e]. Qed.

Lemma label_text_non_finite p k :
  (k < 3)%nat → non_finite (mat_at 4 p k 3) → ∀ text, label_text p ≠ Ret text.
Proof.
  intros Hk Hnf text. unfold label_text.
  destruct k as [| [| [| k]]]; [| | | lia].
  - rewrite (cm_text_non_finite _ Hnf). simpl. discriminate.
  - rewrite (cm_text_non_finite (mat_at 4 p 1 3) Hnf).
    destruct (cm_text (mat_at 4 p 0 3)); simpl; discriminate.
  - rewrite (cm_text_non_finite (mat_at 4 p 2 3) Hnf).
    destruct (cm_text (mat_at 4 p 0 3)); simpl; try discriminate.
    destruct (cm_text (mat_at 4 p 1 3)); simpl; discriminate.
Qed.

(** X11 (drawPose): a pose whose translation has a NaN or infinite
    component makes [drawDetections] undefined: the label converts each
    component, times 100, to [int]. *)
Theorem drawDetections_non_finite_translation (st : HeadPoseEstimation) (σ : store)
    (img : Mat) (fs : list (list Point)) (ps : list head_pose)
    (i : nat) (p : head_pose) (k : nat) :
  ps !! i = Some p → (k < 3)%nat → non_finite (mat_at 4 p k 3) →
  ∃ u, drawDetections st σ img fs ps = UB u.
Proof.
  intros Hp Hk Hnf. destruct (drawDetections st σ img fs ps) as [[σ' r] | e | u] eqn:Hd.
  - apply drawDetections_Ret_blocks in Hd as (c & blocks & _ & _ & _ & _ & Hblocks).
    destruct (Hblocks i p Hp) as (blk & _ & a0 & a1 & a2 & a3 & rest & text & org & _ & Ht & _).
    by apply (label_text_non_finite p k Hk Hnf) in Ht.
  - by apply no_throw_drawDetections in Hd.
  - by exists u.
Qed.

(** X12 (update, poses, drawDetections): the landmarks and the poses of
    one frame can be drawn: after a returning [update] and [poses], with
    an allocated image, [drawDetections] returns when [projectPoints]
    gives the four points asked for and each translation component, in
    centimetres, is an [int]. *)
Theorem same_frame_drawing_defined (st : HeadPoseEstimation) (σ : store) (image : Mat)
    (st' : HeadPoseEstimation) (feats : list (list Point)) (ps : list head_pose)
    (σ2 : store) (img2 : Mat) (c : canvas) :
  update st σ image = Ret (st', feats) →
  poses st' = Ret ps →
  Forall (λ p, (4 ≤ length (projected_axes st' p))%nat ∧ returns (label_text p)) ps →
  σ2 !! data img2 = Some c →
  ∃ σ' r, drawDetections st' σ2 img2 feats ps = Ret (σ', r)
    ∧ cols r = cols img2 ∧ rows r = rows img2.
Proof.
  intros (Hall & -> & _ & _)%update_Ret_shapes Hposes Hps Hc.
  rewrite (drawDetections_unfold st' σ2 img2 _ ps c Hc). cbv zeta.
  set (r := mkMat (cols img2) (rows img2) (fresh (dom σ2))).
  assert (Hσ0 : is_Some (<[fresh (dom σ2) := c]> σ2 !! data r)).
  { simpl. rewrite lookup_insert_eq. by eexists. }
  rewrite drawFeatures_ok; [| done |].
  2:{ apply Forall_fmap. eapply Forall_impl; [exact Hall |].
      intros d Hd. unfold compose, landmarks_of. rewrite length_fmap, length_take.
      cbv beta in Hd. lia. }
  simpl. destruct (drawPoses_ok st' ps 0 r
                     (overpaint (data r) (concat (feature_lines <$> (landmarks_of <$> shapes st')))
                        (<[fresh (dom σ2) := c]> σ2))) as [ann Hann].
  - by apply overpaint_allocated.
  - intros k p Hp. rewrite Forall_forall in Hps.
    destruct (Hps p (list_elem_of_lookup_2 _ _ _ Hp)) as [Hax Htext].
    split; [done |]. split; [done |].
    apply mapM_Ret in Hposes.
    destruct (Forall2_lookup_r _ _ _ _ _ Hposes Hp) as (x & Hx & Hpose).
    apply lookup_seq in Hx as [-> _]. simpl in Hpose.
    rewrite pose_unfold in Hpose.
    destruct (pose_solve_call st' k) as [call | |] eqn:Hcall; try discriminate.
    change (0 + k)%nat with k.
    destruct (pose_solve_call_Ret_coords st' k call Hcall SELLION) as [org ->]. done.
  - simpl in Hann. rewrite Hann. simpl. by eexists _, _.
Qed.

(** X13 (update, drawDetections, coordsOf): when the landmark lists passed
    to [drawDetections] are those the last [update] returned, each label is
    at the sellion of the list of the same index, converted as [coordsOf]
    and [cv::putText] convert it. *)
Theorem labels_at_returned_sellions (st : HeadPoseEstimation) (σ : store) (image : Mat)
    (st' : HeadPoseEstimation) (feats : list (list Point))
    (σ2 : store) (img2 : Mat) (ps : list head_pose) (σ' : store) (r : Mat) :
  (feature_index SELLION < 68)%nat →
  update st σ image = Ret (st', feats) →
  drawDetections st' σ2 img2 feats ps = Ret (σ', r) →
  (length ps ≤ length feats)%nat
  ∧ ∃ c ann, σ2 !! data img2 = Some c
      ∧ σ' !! data r = Some (mkCanvas (pixels c) (drawn c ++ ann))
      ∧ label_orgs ann = sellion_of <$> take (length ps) feats.
Proof.
  intros Hs (Hall & -> & _ & _)%update_Ret_shapes
    (Hlen & c & ann & Hc & _ & -> & _ & _ & Hann)%drawDetections_Ret.
  rewrite length_fmap. split; [done |].
  exists c, ann. split; [done |]. split; [by rewrite lookup_insert_eq |].
  rewrite Hann, <- fmap_take, <- list_fmap_compose.
  apply Forall_fmap_ext_1. apply Forall_take.
  eapply Forall_impl; [exact Hall |]. intros d Hd. cbv beta in Hd.
  unfold compose, sellion_of, landmarks_of, landmark, landmark_point.
  rewrite list_lookup_fmap, lookup_take_lt by done.
  destruct (lookup_lt_is_Some_2 (parts d) (feature_index SELLION)) as [q ->]; [lia |]. done.
Qed.

Lemma double_to_int_truncates d v :
  double_to_int d = Ret v →
  ∃ q, F2Q d = Some q ∧ v = Qnum q ÷ Z.pos (Qden q) ∧ - 2 ^ 31 ≤ v ≤ 2 ^ 31 - 1.
Proof.
  destruct d as [s | s | | s m e]; simpl; try discriminate.
  - intros [= <-]. exists 0%Q. simpl. split; [done |]. split; [done | lia].
  - destruct (_ && _) eqn:Hr; [| discriminate]. intros [= <-].
    apply andb_prop in Hr as [H1%Z.leb_le H2%Z.leb_le].
    eexists. split; [reflexivity |]. split; [| lia].
    destruct e as [| e | e].
    + simpl. rewrite Z.quot_1_r. by destruct s.
    + cbn [Qnum Qden inject_Z]. rewrite Z.quot_1_r, Z.shiftl_mul_pow2 by lia.
      rewrite Z.pow_pos_fold. destruct s; lia.
    + cbn [Qnum Qden]. rewrite <- Z.shiftr_opp_r. simpl Z.opp.
      rewrite Z.shiftr_div_pow2 by lia. rewrite Pos2Z.inj_pow.
      assert (Hpow : 0 < 2 ^ Z.pos e) by (apply Z.pow_pos_nonneg; lia).
      destruct s.
      * change (Z.neg m) with (- Z.pos m). rewrite Z.quot_opp_l by lia.
        by rewrite Z.quot_div_nonneg by lia.
      * by rewrite Z.quot_div_nonneg by lia.
Qed.

(** The value shown for one translation component. *)
Lemma cm_text_truncates v s :
  cm_text v = Ret s →
  ∃ q, F2Q (F64.mul v (F64.of_Z 100)) = Some q ∧ s = pretty (Qnum q ÷ Z.pos (Qden q)).
Proof.
  unfold cm_text. destruct (double_to_int _) as [z | |] eqn:Hz; try discriminate.
  intros [= <-]. apply double_to_int_truncates in Hz as (q & Hq & -> & _). by exists q.
Qed.

(** X14 (drawPose): the label shows each translation component multiplied
    by 100 in double precision and truncated toward zero (not rounded to
    nearest), in the order x, y, z. *)
Theorem label_text_truncates (p : head_pose) (text : string) :
  label_text p = Ret text →
  ∃ qx qy qz,
    F2Q (F64.mul (mat_at 4 p 0 3) (F64.of_Z 100)) = Some qx
    ∧ F2Q (F64.mul (mat_at 4 p 1 3) (F64.of_Z 100)) = Some qy
    ∧ F2Q (F64.mul (mat_at 4 p 2 3) (F64.of_Z 100)) = Some qz
    ∧ text = "(" +:+ pretty (Qnum qx ÷ Z.pos (Qden qx)) +:+ "cm, "
                 +:+ pretty (Qnum qy ÷ Z.pos (Qden qy)) +:+ "cm, "
                 +:+ pretty (Qnum qz ÷ Z.pos (Qden qz)) +:+ "cm)".
Proof.
  unfold label_text.
  destruct (cm_text (mat_at 4 p 0 3)) as [tx | |] eqn:Hx; try discriminate.
  destruct (cm_text (mat_at 4 p 1 3)) as [ty | |] eqn:Hy; try discriminate.
  destruct (cm_text (mat_at 4 p 2 3)) as [tz | |] eqn:Hz; try discriminate.
  simpl. intros [= <-].
  apply cm_text_truncates in Hx as (qx & Hqx & ->).
  apply cm_text_truncates in Hy as (qy & Hqy & ->).
  apply cm_text_truncates in Hz as (qz & Hqz & ->).
  by exists qx, qy, qz.
Qed.
End DrawTheorems.

(** ** Integer coordinates in single precision and the intersection test *)

Lemma digits_lower c : 2 ^ (Z.pos (digits2_pos c) - 1) ≤ Z.pos c.
Proof.
  assert (Hd : digits2_pos c = Pos.size c).
  { induction c as [c IH | c IH |]; simpl; [by rewrite IH | by rewrite IH | done]. }
  rewrite Hd. pose proof (Pos.size_le c) as Hs.
  apply Pos2Z.pos_le_pos in Hs. rewrite Pos2Z.inj_pow in Hs.
  replace (Z.pos (Pos.size c)) with (Z.pos (Pos.size c) - 1 + 1) in Hs by lia.
  rewrite Z.pow_add_r in Hs by lia. lia.
Qed.

Lemma digits_upper c : Z.pos c < 2 ^ Z.pos (digits2_pos c).
Proof.
  assert (Hd : digits2_pos c = Pos.size c).
  { induction c as [c IH | c IH |]; simpl; [by rewrite IH | by rewrite IH | done]. }
  rewrite Hd. pose proof (Pos.size_gt c) as Hs.
  apply Pos2Z.pos_lt_pos in Hs. by rewrite Pos2Z.inj_pow in Hs.
Qed.

Section ExactMore.
Variables prec emax : Z.
Hypothesis Hprec : 1 < prec.
Hypothesis Hemax : prec ≤ emax.

Lemma sub_dyadic sa ca sb cb :
  Z.pos ca < 2 ^ prec → Z.pos cb < 2 ^ prec →
  Z.abs (cond_Zopp sa (Z.pos ca) - cond_Zopp sb (Z.pos cb)) < 2 ^ prec →
  SFsub prec emax (dyadic prec sa ca 0) (dyadic prec sb cb 0)
  = scaled prec (cond_Zopp sa (Z.pos ca) - cond_Zopp sb (Z.pos cb)) 0.
Proof.
  intros Ha Hb Hab. unfold dyadic, SFsub.
  set (n := (spare prec ca `max` spare prec cb)%nat).
  replace (Z.min (0 - Z.of_nat (spare prec ca)) (0 - Z.of_nat (spare prec cb)))
    with (- Z.of_nat n) by lia.
  replace (- Z.of_nat n)
    with (0 - Z.of_nat (spare prec ca) - Z.of_nat (n - spare prec ca)) at 1 by lia.
  rewrite shl_align_lt.
  replace (- Z.of_nat n)
    with (0 - Z.of_nat (spare prec cb) - Z.of_nat (n - spare prec cb)) at 1 by lia.
  rewrite shl_align_lt. simpl fst. rewrite !shl_add.
  replace (n - spare prec ca + spare prec ca)%nat with n by lia.
  replace (n - spare prec cb + spare prec cb)%nat with n by lia.
  rewrite <- (normalize_int prec emax Hprec Hemax _ n Hab). f_equal.
  rewrite !shl_value. destruct sa, sb; simpl cond_Zopp; lia.
Qed.

Lemma sub_int a b :
  Z.abs a < 2 ^ prec → Z.abs b < 2 ^ prec → Z.abs (a - b) < 2 ^ prec →
  SFsub prec emax (scaled prec a 0) (scaled prec b 0) = scaled prec (a - b) 0.
Proof.
  intros Ha Hb Hab. destruct a as [| ca | ca], b as [| cb | cb]; try reflexivity.
  - apply (sub_dyadic false ca false cb); simpl; lia.
  - apply (sub_dyadic false ca true cb); simpl in *; lia.
  - apply (sub_dyadic true ca false cb); simpl in *; lia.
  - apply (sub_dyadic true ca true cb); simpl in *; lia.
Qed.

Lemma mul_dyadic sa ca sb cb :
  Z.pos (ca * cb) < 2 ^ prec →
  SFmul prec emax (dyadic prec sa ca 0) (dyadic prec sb cb 0)
  = dyadic prec (xorb sa sb) (ca * cb) 0.
Proof.
  intros Hab. unfold dyadic at 1 2, SFmul.
  replace (shl (spare prec ca) ca * shl (spare prec cb) cb)%positive
    with (shl (spare prec ca + spare prec cb) (ca * cb)).
  2:{ apply Pos2Z.inj. rewrite !Pos2Z.inj_mul, !shl_value, Pos2Z.inj_mul, Nat2Z.inj_add,
        Z.pow_add_r by lia. lia. }
  replace (0 - Z.of_nat (spare prec ca) + (0 - Z.of_nat (spare prec cb)))
    with (0 - Z.of_nat (spare prec ca + spare prec cb)) by lia.
  apply round_aux_dyadic; [by apply fits_int |].
  pose proof (digits_bound _ _ Hab) as Hd.
  pose proof (digits_lower ca) as La. pose proof (digits_lower cb) as Lb.
  pose proof (digits_upper (ca * cb)) as Uab.
  assert (Hca : Z.pos ca < 2 ^ prec) by nia.
  assert (Hcb : Z.pos cb < 2 ^ prec) by nia.
  pose proof (digits_bound _ _ Hca) as Hda. pose proof (digits_bound _ _ Hcb) as Hdb.
  assert (Hlow : Z.pos (digits2_pos ca) + Z.pos (digits2_pos cb) - 2
                 < Z.pos (digits2_pos (ca * cb))).
  { apply (Z.pow_lt_mono_r_iff 2); [lia | lia |].
    replace (Z.pos (digits2_pos ca) + Z.pos (digits2_pos cb) - 2)
      with ((Z.pos (digits2_pos ca) - 1) + (Z.pos (digits2_pos cb) - 1)) by lia.
    rewrite Z.pow_add_r by lia. rewrite Pos2Z.inj_mul in Uab. nia. }
  unfold spare. lia.
Qed.

End ExactMore.

(** *** Integer coordinates in binary32 *)

Lemma holds_int_zero prec s : holds_int prec (S754_zero s) 0.
Proof. destruct s; [by right | by left]. Qed.

Lemma holds_int_of_Z z : Z.abs z < 2 ^ 24 → holds_int 24 (F32.of_Z z) z.
Proof. intros Hz. left. by apply binary32_of_Z. Qed.

Lemma sub_holds_int x y a b :
  holds_int 24 x a → holds_int 24 y b →
  Z.abs a < 2 ^ 24 → Z.abs b < 2 ^ 24 → Z.abs (a - b) < 2 ^ 24 →
  holds_int 24 (F32.sub x y) (a - b).
Proof.
  intros [-> | [-> ->]] [-> | [-> ->]] Ha Hb Hab.
  - left. apply (sub_int 24 128); lia.
  - destruct a as [| c | c]; left; reflexivity.
  - destruct b as [| c | c]; [by right | by left | by left].
  - by left.
Qed.

Lemma mul_holds_int x y a b :
  holds_int 24 x a → holds_int 24 y b → Z.abs (a * b) < 2 ^ 24 →
  holds_int 24 (F32.mul x y) (a * b).
Proof.
  intros Hx Hy Hab.
  assert (Hl : ∀ s u, holds_int 24 (F32.mul (S754_zero s) (scaled 24 u 0)) 0).
  { intros s [| c | c]; apply holds_int_zero. }
  assert (Hr : ∀ s u, holds_int 24 (F32.mul (scaled 24 u 0) (S754_zero s)) 0).
  { intros s [| c | c]; apply holds_int_zero. }
  destruct Hx as [-> | [-> ->]], Hy as [-> | [-> ->]].
  - destruct a as [| ca | ca], b as [| cb | cb];
      first [ apply (Hl false)
            | apply (Hr false)
            | left; apply (mul_dyadic 24 128); [lia | lia | simpl in Hab; lia] ].
  - rewrite Z.mul_0_r. apply Hr.
  - apply (Hl true).
  - apply (holds_int_zero 24 false).
Qed.

Lemma lit_1e_8_value : F64.lit_1e_8 = S754_finite false 6044629098073146 (-79).
Proof. vm_compute. reflexivity. Qed.

(** The test [abs(cross) < 1e-8] on a float that holds an integer. *)
Lemma below_eps_holds_int c z :
  holds_int 24 c z → Z.abs z < 2 ^ 24 →
  F64.ltb (F64.of_F32 (F32.abs c)) F64.lit_1e_8 = bool_decide (z = 0).
Proof.
  intros [-> | [-> ->]] Hz; [| by vm_compute].
  destruct z as [| cz | cz]; [by vm_compute | |].
  all: rewrite bool_decide_eq_false_2 by lia.
  all: change (F32.abs (scaled 24 _ 0)) with (dyadic 24 false cz 0).
  all: rewrite binary64_of_binary32 by (simpl in Hz; lia).
  all: rewrite lit_1e_8_value; unfold dyadic, F64.ltb, SFltb, SFcompare.
  all: assert (He : (0 - Z.of_nat (spare 53 cz) ?= -79) = Gt)
         by (apply Z.compare_gt_iff; unfold spare; lia).
  all: by rewrite He.
Qed.

Lemma abs_mul_bound a b A B : Z.abs a ≤ A → Z.abs b ≤ B → Z.abs (a * b) ≤ A * B.
Proof.
  intros Ha Hb. rewrite Z.abs_mul. apply Z.mul_le_mono_nonneg; lia.
Qed.

(** X15 (intersection): for four points with integer coordinates of
    magnitude at most 1024 the test is exact: [intersection] reports no
    intersection exactly when the two direction vectors have a zero cross
    product, that is when the lines are parallel or one of them is reduced
    to a point. *)
Theorem intersection_parallel_test (ax ay bx by_ cx cy dx dy : Z) (r : Point2f) :
  Forall (λ z, Z.abs z ≤ 1024) [ax; ay; bx; by_; cx; cy; dx; dy] →
  fst (intersection (pt ax ay) (pt bx by_) (pt cx cy) (pt dx dy) r) = false
  ↔ (bx - ax) * (dy - cy) - (by_ - ay) * (dx - cx) = 0.
Proof.
  intros Hall.
  repeat (apply Forall_cons in Hall as [? Hall]).
  pose proof (abs_mul_bound (bx - ax) (dy - cy) 2048 2048 ltac:(lia) ltac:(lia)) as Hp1.
  pose proof (abs_mul_bound (by_ - ay) (dx - cx) 2048 2048 ltac:(lia) ltac:(lia)) as Hp2.
  assert (Hcross : holds_int 24
            (cross2f (Point2f_sub (pt bx by_) (pt ax ay)) (Point2f_sub (pt dx dy) (pt cx cy)))
            ((bx - ax) * (dy - cy) - (by_ - ay) * (dx - cx))).
  { unfold cross2f, Point2f_sub, pt, Point2f_of_Point. cbn [x2f y2f xi yi].
    apply sub_holds_int; [| | lia ..];
      apply mul_holds_int; [| | lia | | | lia];
      apply sub_holds_int; try apply holds_int_of_Z; lia. }
  unfold intersection.
  rewrite (below_eps_holds_int _ _ Hcross) by lia.
  destruct (bool_decide_reflect ((bx - ax) * (dy - cy) - (by_ - ay) * (dx - cx) = 0));
    simpl; split; congruence.
Qed.

Lemma SFmul_nan_r prec emax x : SFmul prec emax x S754_nan = S754_nan.
Proof. by destruct x. Qed.

Lemma SFadd_nan_r prec emax x : SFadd prec emax x S754_nan = S754_nan.
Proof. by destruct x. Qed.

Lemma SFdiv_nan_r prec emax x : SFdiv prec emax x S754_nan = S754_nan.
Proof. by destruct x. Qed.

(** X16 (intersection): when the cross product evaluates to NaN (an
    operand is NaN or infinite, or the products overflow), the test
    [abs(cross) < 1e-8] is false: the call reports an intersection and sets
    [r] to (NaN, NaN). *)
Theorem intersection_nan_cross (o1 p1 o2 p2 r : Point2f) :
  cross2f (Point2f_sub p1 o1) (Point2f_sub p2 o2) = S754_nan →
  intersection o1 p1 o2 p2 r = (true, mkPoint2f S754_nan S754_nan).
Proof.
  intros Hc. unfold intersection. rewrite Hc. simpl.
  unfold Point2f_add, Point2f_scale, F32.div, F64.mul, F32.add. cbn [x2f y2f].
  rewrite SFdiv_nan_r. simpl. by rewrite !SFmul_nan_r, !SFadd_nan_r.
Qed.

(** ** Conversions of coordinates *)

Section Conversions.
Context `{Collaborators}.

Lemma wrap_int_range z : - 2 ^ 31 ≤ wrap_int z < 2 ^ 31.
Proof. unfold wrap_int. pose proof (Z.mod_pos_bound (z + 2 ^ 31) (2 ^ 32)). lia. Qed.

Lemma wrap_int_id z : - 2 ^ 31 ≤ z < 2 ^ 31 → wrap_int z = z.
Proof. intros Hz. unfold wrap_int. rewrite Z.mod_small; lia. Qed.

(** X17 (toCv, coordsOf): [toCv] keeps a coordinate that is an [int] and
    always returns [int] coordinates; [coordsOf] then holds a landmark
    whose coordinates are below 2^24 in magnitude, as every pixel position
    is, without rounding. *)
Theorem coordsOf_exact (st : HeadPoseEstimation) (i : nat) (f : FACIAL_FEATURE)
    (d : full_object_detection) (q : dpoint) :
  shapes st !! i = Some d →
  parts d !! feature_index f = Some q →
  (- 2 ^ 31 ≤ xi (toCv q) < 2 ^ 31 ∧ - 2 ^ 31 ≤ yi (toCv q) < 2 ^ 31)
  ∧ (- 2 ^ 31 ≤ dx q < 2 ^ 31 → - 2 ^ 31 ≤ dy q < 2 ^ 31 → toCv q = mkPoint (dx q) (dy q))
  ∧ (Z.abs (dx q) < 2 ^ 24 → Z.abs (dy q) < 2 ^ 24 →
     ∃ p vx vy, coordsOf st i f = Ret p ∧ value2 p = Some (vx, vy)
       ∧ (vx == inject_Z (dx q))%Q ∧ (vy == inject_Z (dy q))%Q).
Proof.
  intros Hd Hq. split; [| split].
  - unfold toCv. simpl. split; apply wrap_int_range.
  - intros Hx Hy. unfold toCv. by rewrite !wrap_int_id.
  - intros Hx Hy. unfold coordsOf, part, vec_at. rewrite Hd. simpl. rewrite Hq. simpl.
    unfold toCv, Point2f_of_Point. cbn [xi yi].
    rewrite !wrap_int_id by lia. rewrite !binary32_of_Z by done.
    destruct (F2Q_scaled_int (dx q)) as (vx & Hx' & Hvx).
    destruct (F2Q_scaled_int (dy q)) as (vy & Hy' & Hvy).
    eexists _, vx, vy. split; [reflexivity |].
    unfold value2. cbn [x2f y2f]. by rewrite Hx', Hy'.
Qed.
End Conversions.

(** ** The properties on the concrete collaborators *)

Section Examples.
#[local] Existing Instance fixture.

Lemma demo_first_eq : demo_first = Ret (demo_state, demo_features).
Proof. vm_compute. reflexivity. Qed.

Lemma demo_run_eq : run demo_state demo_later = Ret (demo_final, demo_calls).
Proof. vm_compute. reflexivity. Qed.

Lemma demo_has_landmarks : has_landmarks demo_state 0.
Proof.
  exists (fixture_shape (mkRect 10 10 110 110)).
  split; [vm_compute; reflexivity |].
  intros f. apply Nat.ltb_lt. destruct f; vm_compute; reflexivity.
Defined.

Lemma demo_reachable : reachable demo_state.
Proof.
  exists (F32.of_Z 500), [CallUpdate (store_of [10]) (image_of 640 480)], [].
  vm_compute. reflexivity.
Defined.

Lemma pose_matrix_layout_witness :
  has_landmarks demo_state 0
  ∧ ∃ call m,
      pose_solve_call demo_state 0 = Ret call
      ∧ pose demo_state 0 = Ret m
      ∧ length m = 16%nat
      ∧ (∀ r c, (r < 3)%nat → (c < 3)%nat →
           mat_at 4 m r c = mat_at 3 (Rodrigues (fst (solvePnP call))) r c)
      ∧ (∀ r, (r < 3)%nat →
           mat_at 4 m r 3 = F64.div (vec3_at (snd (solvePnP call)) r) (F64.of_Z 1000))
      ∧ [mat_at 4 m 3 0; mat_at 4 m 3 1; mat_at 4 m 3 2; mat_at 4 m 3 3]
        = [F64.of_Z 0; F64.of_Z 0; F64.of_Z 0; F64.of_Z 1].
Proof.
  split; [exact demo_has_landmarks |].
  apply (pose_matrix_layout demo_state 0). exact demo_has_landmarks.
Defined.



Lemma optical_center_set_once_witness :
  -1 ≤ cols (image_of 640 480)
  ∧ opticalCenter (HeadPoseEstimation_new (F32.of_Z 500)) = (F32.of_Z (-1), F32.of_Z (-1))
  ∧ opticalCenter demo_state = (F32.of_Z 320, F32.of_Z 240)
  ∧ opticalCenter demo_final = opticalCenter demo_state
  ∧ (0 ≤ cols (image_of 640 480) < 2 ^ 25 → 0 ≤ rows (image_of 640 480) < 2 ^ 25 →
     ∃ qx qy, F2Q (opticalCenterX demo_state) = Some qx
       ∧ F2Q (opticalCenterY demo_state) = Some qy
       ∧ (qx == inject_Z 320)%Q ∧ (qy == inject_Z 240)%Q).
Proof.
  split; [simpl; lia |].
  apply (optical_center_set_once (F32.of_Z 500) [CallPoses]
           (HeadPoseEstimation_new (F32.of_Z 500)) []
           (store_of [10]) (image_of 640 480) demo_state demo_features
           demo_later demo_final demo_calls).
  - simpl; lia.
  - repeat constructor; simpl; tauto.
  - vm_compute; reflexivity.
  - exact demo_first_eq.
  - exact demo_run_eq.
Defined.

Lemma poses_maps_pose_witness :
  reachable demo_state
  ∧ poses demo_state = Ret [demo_pose]
  ∧ pose demo_state 0 = Ret demo_pose
  ∧ ∃ st', update demo_state (store_of []) (image_of 640 480) = Ret (st', [])
      ∧ shapes st' = [] ∧ poses st' = Ret [].
Proof.
  split; [exact demo_reachable |].
  destruct (poses_maps_pose demo_state demo_reachable) as (_ & Hposes & Hnone).
  split; [vm_compute; reflexivity |].
  split.
  - apply (proj1 (Hposes [demo_pose])); [vm_compute; reflexivity | reflexivity].
  - apply (Hnone (store_of []) (image_of 640 480) (mkCanvas [] []));
      vm_compute; reflexivity.
Defined.

(** C6, as stated, fails: on a new estimator, with no stored face,
    [pose 0] reads the empty vector of shapes out of bounds and signals
    nothing. *)
Lemma pose_signals_no_index_error :
  pose (HeadPoseEstimation_new (F32.of_Z 500)) 0 = UB OutOfBounds
  ∧ pose (HeadPoseEstimation_new (F32.of_Z 500)) 0 ≠ Throw IndexError.
Proof. split; [vm_compute; reflexivity | vm_compute; discriminate]. Qed.

Lemma pose_out_of_range_unchecked_witness :
  (length (shapes demo_state) ≤ 1)%nat
  ∧ pose demo_state 1 = UB OutOfBounds ∧ ∀ e, pose demo_state 1 ≠ Throw e.
Proof.
  assert (Hlen : (length (shapes demo_state) ≤ 1)%nat) by (vm_compute; lia).
  split; [exact Hlen |].
  apply (pose_out_of_range_unchecked demo_state 1 Hlen).
Defined.

(** C8, as stated, fails: with the same base image, landmark lists and
    poses, two estimators with different optical centres and stored shapes
    return different images: the axes start at (320, 240) for one and at
    (50, 38) for the other, the label is at (40, 100) for one and at
    (80, 140) for the other. *)
Lemma drawDetections_not_function_of_arguments :
  painted_after 65 (drawDetections demo_state (store_of [10]) (image_of 640 480)
                      demo_features [demo_pose])
  = [ DLine (mkPoint 320 240) (mkPoint 320 240) x_axis_color 2;
      DLine (mkPoint 320 240) (mkPoint 320 290) y_axis_color 2;
      DLine (mkPoint 320 240) (mkPoint 370 240) z_axis_color 2;
      DText "(0cm, 0cm, 100cm)" (mkPoint 40 100) F64.lit_0_5 text_color 2 ]
  ∧ painted_after 65 (drawDetections demo_other (store_of [10]) (image_of 640 480)
                        demo_features [demo_pose])
    = [ DLine (mkPoint 50 38) (mkPoint 50 38) x_axis_color 2;
        DLine (mkPoint 50 38) (mkPoint 50 88) y_axis_color 2;
        DLine (mkPoint 50 38) (mkPoint 100 38) z_axis_color 2;
        DText "(0cm, 0cm, 100cm)" (mkPoint 80 140) F64.lit_0_5 text_color 2 ]
  ∧ drawDetections demo_state (store_of [10]) (image_of 640 480) demo_features [demo_pose]
    ≠ drawDetections demo_other (store_of [10]) (image_of 640 480) demo_features [demo_pose].
Proof.
  split; [vm_compute; reflexivity |]. split; [vm_compute; reflexivity |].
  intros Heq. apply (f_equal (painted_after 65)) in Heq. vm_compute in Heq. discriminate Heq.
Qed.

Lemma demo_drawn_eq :
  drawDetections demo_final (store_of [10]) (image_of 640 480) demo_features [demo_pose]
  = Ret (demo_drawn_store, mkMat 640 480 1).
Proof. vm_compute. reflexivity. Qed.

Lemma drawDetections_returns_fresh_copy_witness :
  drawDetections demo_final (store_of [10]) (image_of 640 480) demo_features [demo_pose]
  = Ret (demo_drawn_store, mkMat 640 480 1)
  ∧ store_of [10] !! 1%nat = None
  ∧ demo_drawn_store !! 0%nat = Some (mkCanvas [10] [])
  ∧ dom demo_drawn_store = dom (store_of [10]) ∪ {[1%nat]}.
Proof.
  split; [exact demo_drawn_eq |].
  destruct (drawDetections_returns_fresh_copy demo_final (store_of [10]) (image_of 640 480)
              demo_features [demo_pose] demo_drawn_store (mkMat 640 480 1) demo_drawn_eq)
    as (Hfresh & Hkeep & Hdom & _).
  split; [exact Hfresh |]. split; [| exact Hdom].
  apply Hkeep. vm_compute. reflexivity.
Defined.

(** The landmark list passed has its sellion at (40, 100); the label is at
    (80, 140), the sellion of the shape the estimator stores. *)
Lemma draw_labels_from_stored_shapes_witness :
  (demo_features !! 0%nat ≫= (.!! 30%nat)) = Some (mkPoint 40 100)
  ∧ (length [demo_pose] ≤ length (shapes demo_final))%nat
  ∧ (∃ c ann, store_of [10] !! data (image_of 640 480) = Some c
       ∧ demo_drawn_store !! 1%nat = Some (mkCanvas (pixels c) (drawn c ++ ann))
       ∧ label_orgs ann = [mkPoint 80 140])
  ∧ ∃ u, drawDetections demo_final (store_of [10]) (image_of 640 480) demo_features
           [demo_pose; demo_pose] = UB u.
Proof.
  split; [vm_compute; reflexivity |].
  destruct (draw_labels_from_stored_shapes demo_final (store_of [10]) (image_of 640 480)
              demo_features [demo_pose]) as (Hret & _ & _).
  destruct (Hret demo_drawn_store (mkMat 640 480 1) demo_drawn_eq)
    as (Hlen & c & ann & Hc & Hr & Hann).
  split; [exact Hlen |]. split.
  - exists c, ann. split; [exact Hc |]. split; [exact Hr |].
    rewrite Hann. vm_compute. reflexivity.
  - apply (draw_labels_from_stored_shapes demo_final (store_of [10]) (image_of 640 480)
             demo_features [demo_pose; demo_pose]).
    vm_compute. lia.
Defined.
End Examples.

(** ** Further examples *)

Section MoreExamples.
#[local] Existing Instance fixture.

Lemma demo_same_frame_eq :
  drawDetections demo_state (store_of [10]) (image_of 640 480) demo_features [demo_pose]
  = Ret (demo_same_frame_store, mkMat 640 480 1).
Proof. vm_compute. reflexivity. Qed.

Lemma demo_posed_eq :
  drawPose demo_state demo_pose 0 (image_of 640 480) (store_of [10]) = Ret demo_posed_store.
Proof. vm_compute. reflexivity. Qed.

Lemma update_landmarks_witness :
  length demo_features = 1%nat
  ∧ length demo_features = length (faces demo_state)
  ∧ length (shapes demo_state) = length (faces demo_state)
  ∧ Forall (λ fl, length fl = 68%nat) demo_features
  ∧ Forall (λ d, (68 ≤ length (parts d))%nat) (shapes demo_state)
  ∧ demo_features = (λ d, toCv <$> take 68 (parts d)) <$> shapes demo_state
  ∧ current_image demo_state = Some (image_of 640 480).
Proof.
  split; [vm_compute; reflexivity |].
  apply (update_landmarks (HeadPoseEstimation_new (F32.of_Z 500)) (store_of [10])
           (image_of 640 480) demo_state demo_features).
  exact demo_first_eq.
Defined.

(** With the 68-point predictor the first frame is processed; with a
    5-point predictor the same call reads part 5 of a shape of five parts. *)
Lemma update_defined_witness :
  (∃ st', update (HeadPoseEstimation_new (F32.of_Z 500)) (store_of [10]) (image_of 640 480)
          = Ret (st', demo_features))
  ∧ @update fixture_five (HeadPoseEstimation_new (F32.of_Z 500)) (store_of [10])
      (image_of 640 480) = UB OutOfBounds
  ∧ update (HeadPoseEstimation_new (F32.of_Z 500)) ∅ (image_of 640 480) = UB DanglingBuffer.
Proof.
  split; [| split].
  - destruct (update_defined (HeadPoseEstimation_new (F32.of_Z 500)) (store_of [10])
                (image_of 640 480)) as [_ Hc].
    destruct (Hc (mkCanvas [10] []) ltac:(vm_compute; reflexivity)) as [Hok _].
    apply Hok. constructor; [vm_compute; lia | constructor].
  - destruct (@update_defined fixture_five (HeadPoseEstimation_new (F32.of_Z 500))
                (store_of [10]) (image_of 640 480)) as [_ Hc].
    destruct (Hc (mkCanvas [10] []) ltac:(vm_compute; reflexivity)) as [_ Hshort].
    apply Hshort. apply Exists_cons_hd. vm_compute. lia.
  - apply (update_defined (HeadPoseEstimation_new (F32.of_Z 500)) ∅ (image_of 640 480)).
    vm_compute. reflexivity.
Defined.

Lemma update_replaces_detections_witness :
  shapes demo_other ≠ shapes demo_state
  ∧ ∃ st2', update demo_other (store_of [10]) (image_of 640 480) = Ret (st2', demo_features)
      ∧ faces st2' = faces demo_state ∧ shapes st2' = shapes demo_state
      ∧ current_image st2' = current_image demo_state
      ∧ focalLength st2' = focalLength demo_other.
Proof.
  split; [vm_compute; discriminate |].
  apply (update_replaces_detections (HeadPoseEstimation_new (F32.of_Z 500)) demo_other
           (store_of [10]) (image_of 640 480) demo_state demo_features).
  exact demo_first_eq.
Defined.

Lemma pose_defined_witness :
  has_landmarks demo_state 0
  ∧ (∃ m, pose demo_state 0 = Ret m)
  ∧ ¬ has_landmarks demo_state 1
  ∧ pose demo_state 1 = UB OutOfBounds.
Proof.
  assert (Hno : ¬ has_landmarks demo_state 1).
  { intros (d & Hd & _). vm_compute in Hd. discriminate Hd. }
  split; [exact demo_has_landmarks |]. split; [| split; [exact Hno |]].
  - apply (proj1 (pose_defined demo_state 0)). exact demo_has_landmarks.
  - apply (proj2 (pose_defined demo_state 1)). exact Hno.
Defined.

(** The face of the first frame is the second face of the later frame; its
    pose is the same at index 1 there as at index 0 before. *)
Lemma pose_reads_one_shape_witness :
  length (shapes demo_pair) = 2%nat
  ∧ current_image demo_pair ≠ current_image demo_state
  ∧ pose demo_state 0 = pose demo_pair 1.
Proof.
  split; [vm_compute; reflexivity |]. split; [vm_compute; discriminate |].
  apply (pose_reads_one_shape demo_state demo_pair 0 1); vm_compute; reflexivity.
Defined.

Lemma poses_defined_on_reachable_witness :
  Forall (λ d, (68 ≤ length (parts d))%nat) (shapes demo_state)
  ∧ (∀ i, (∃ m, pose demo_state i = Ret m) ↔ (i < length (faces demo_state))%nat)
  ∧ ∃ l, poses demo_state = Ret l ∧ length l = length (faces demo_state).
Proof.
  apply (poses_defined_on_reachable demo_state).
  - intros f. destruct f; vm_compute; lia.
  - exact demo_reachable.
Defined.

Lemma update_landmarks_feed_pose_witness :
  ∃ p, landmarks_of (fixture_shape (mkRect 10 10 110 110)) !! feature_index SELLION = Some p
    ∧ coordsOf demo_state 0 SELLION = Ret (Point2f_of_Point p).
Proof.
  apply (update_landmarks_feed_pose (HeadPoseEstimation_new (F32.of_Z 500)) (store_of [10])
           (image_of 640 480) demo_state demo_features 0
           (landmarks_of (fixture_shape (mkRect 10 10 110 110))) SELLION).
  - exact demo_first_eq.
  - vm_compute. reflexivity.
  - vm_compute. lia.
Defined.


(** On the first frame the origin projects to (320, 240); the tip of
    (0,0,50) to the same point, the tip of (0,50,0) to (320, 290) and the
    tip of (50,0,0) to (370, 240). *)
Lemma drawPose_commands_witness :
  ∃ a0 a1 a2 a3 rest text d,
    projectPoints
      [p3 0 0 0; p3 50 0 0; p3 0 50 0; p3 0 0 50]
      (Rodrigues_inv (rotation_of demo_pose)) (translation_of demo_pose)
      (projection_of demo_state)
    = a0 :: a1 :: a2 :: a3 :: rest
    ∧ label_text demo_pose = Ret text
    ∧ shapes demo_state !! 0%nat = Some d
    ∧ demo_posed_store = overpaint (data (image_of 640 480))
             [ DLine (Point_of_Point2f a0) (Point_of_Point2f a3) (mkScalar 255 0 0) 2;
               DLine (Point_of_Point2f a0) (Point_of_Point2f a2) (mkScalar 0 255 0) 2;
               DLine (Point_of_Point2f a0) (Point_of_Point2f a1) (mkScalar 0 0 255) 2;
               DText text (Point_of_Point2f (landmark d SELLION)) F64.lit_0_5
                 (mkScalar 0 0 255) 2 ] (store_of [10])
    ∧ ∀ j call, pose_solve_call demo_state j = Ret call →
        cameraMatrix call = projection_of demo_state.
Proof.
  apply (drawPose_commands demo_state demo_pose 0 (image_of 640 480) (store_of [10])
           demo_posed_store).
  exact demo_posed_eq.
Defined.

Lemma drawDetections_short_features_witness :
  drawDetections demo_state (store_of [10]) (image_of 640 480)
    [[mkPoint 1 2; mkPoint 3 4]] [] = UB OutOfBounds.
Proof.
  apply (drawDetections_short_features demo_state (store_of [10]) (image_of 640 480)
           [[mkPoint 1 2; mkPoint 3 4]] [] (mkCanvas [10] [])).
  - vm_compute. reflexivity.
  - apply Exists_cons_hd. simpl. lia.
Defined.

Lemma drawDetections_non_finite_translation_witness :
  ∃ u, drawDetections demo_state (store_of [10]) (image_of 640 480) demo_features [demo_nan]
       = UB u.
Proof.
  apply (drawDetections_non_finite_translation demo_state (store_of [10]) (image_of 640 480)
           demo_features [demo_nan] 0 demo_nan 0).
  - reflexivity.
  - lia.
  - vm_compute. exact I.
Defined.

Lemma same_frame_drawing_defined_witness :
  ∃ σ' r, drawDetections demo_state (store_of [10]) (image_of 640 480) demo_features
            [demo_pose] = Ret (σ', r)
    ∧ cols r = cols (image_of 640 480) ∧ rows r = rows (image_of 640 480).
Proof.
  apply (same_frame_drawing_defined (HeadPoseEstimation_new (F32.of_Z 500)) (store_of [10])
           (image_of 640 480) demo_state demo_features [demo_pose]
           (store_of [10]) (image_of 640 480) (mkCanvas [10] [])).
  - exact demo_first_eq.
  - vm_compute. reflexivity.
  - constructor; [| constructor]. split; [vm_compute; lia | vm_compute; exact I].
  - vm_compute. reflexivity.
Defined.

(** Drawn by the estimator that produced them, the landmarks of the first
    frame get their label at (40, 100), the sellion of the list passed. *)
Lemma labels_at_returned_sellions_witness :
  (length [demo_pose] ≤ length demo_features)%nat
  ∧ ∃ c ann, store_of [10] !! data (image_of 640 480) = Some c
      ∧ demo_same_frame_store !! data (mkMat 640 480 1)
        = Some (mkCanvas (pixels c) (drawn c ++ ann))
      ∧ label_orgs ann = [mkPoint 40 100].
Proof.
  destruct (labels_at_returned_sellions (HeadPoseEstimation_new (F32.of_Z 500))
              (store_of [10]) (image_of 640 480) demo_state demo_features
              (store_of [10]) (image_of 640 480) [demo_pose]
              demo_same_frame_store (mkMat 640 480 1))
    as (Hlen & c & ann & Hc & Hr & Hann).
  - vm_compute. lia.
  - exact demo_first_eq.
  - exact demo_same_frame_eq.
  - split; [exact Hlen |]. exists c, ann. split; [exact Hc |]. split; [exact Hr |].
    rewrite Hann. vm_compute. reflexivity.
Defined.

(** 0.999 m is shown as 99cm and -0.005 m as 0cm. *)
Lemma label_text_truncates_witness :
  label_text demo_near = Ret "(99cm, 0cm, 150cm)"
  ∧ ∃ qx qy qz,
      F2Q (F64.mul (mat_at 4 demo_near 0 3) (F64.of_Z 100)) = Some qx
      ∧ F2Q (F64.mul (mat_at 4 demo_near 1 3) (F64.of_Z 100)) = Some qy
      ∧ F2Q (F64.mul (mat_at 4 demo_near 2 3) (F64.of_Z 100)) = Some qz
      ∧ "(99cm, 0cm, 150cm)"
        = "(" +:+ pretty (Qnum qx ÷ Z.pos (Qden qx)) +:+ "cm, "
              +:+ pretty (Qnum qy ÷ Z.pos (Qden qy)) +:+ "cm, "
              +:+ pretty (Qnum qz ÷ Z.pos (Qden qz)) +:+ "cm)".
Proof.
  assert (Ht : label_text demo_near = Ret "(99cm, 0cm, 150cm)") by (vm_compute; reflexivity).
  split; [exact Ht |].
  apply (label_text_truncates demo_near "(99cm, 0cm, 150cm)"). exact Ht.
Defined.

(** The lines through (0,0),(3,1) and through (0,5),(6,7) are parallel;
    those through (0,0),(3,1) and through (0,5),(6,8) are not. *)
Lemma intersection_parallel_test_witness :
  fst (intersection (pt 0 0) (pt 3 1) (pt 0 5) (pt 6 7) (pt 9 9)) = false
  ∧ fst (intersection (pt 0 0) (pt 3 1) (pt 0 5) (pt 6 8) (pt 9 9)) ≠ false.
Proof.
  split.
  - apply (proj2 (intersection_parallel_test 0 0 3 1 0 5 6 7 (pt 9 9)
                    ltac:(repeat constructor; simpl; lia))).
    reflexivity.
  - intros Hf.
    apply (proj1 (intersection_parallel_test 0 0 3 1 0 5 6 8 (pt 9 9)
                    ltac:(repeat constructor; simpl; lia))) in Hf.
    discriminate Hf.
Defined.

(** Twice the same line through (0,0) and (2^100, 2^100): the products
    overflow, the cross product is NaN and the call reports an intersection
    at (NaN, NaN). *)
Lemma intersection_nan_cross_witness :
  intersection (pt 0 0) (pt (2 ^ 100) (2 ^ 100)) (pt 0 0) (pt (2 ^ 100) (2 ^ 100)) (pt 9 9)
  = (true, mkPoint2f S754_nan S754_nan).
Proof.
  apply (intersection_nan_cross (pt 0 0) (pt (2 ^ 100) (2 ^ 100)) (pt 0 0)
           (pt (2 ^ 100) (2 ^ 100)) (pt 9 9)).
  vm_compute. reflexivity.
Defined.

Lemma coordsOf_exact_witness :
  ∃ p vx vy, coordsOf demo_state 0 SELLION = Ret p ∧ value2 p = Some (vx, vy)
    ∧ (vx == inject_Z 40)%Q ∧ (vy == inject_Z 100)%Q.
Proof.
  destruct (coordsOf_exact demo_state 0 SELLION (fixture_shape (mkRect 10 10 110 110))
              (mkDpoint 40 100)) as (_ & _ & Hex).
  - vm_compute. reflexivity.
  - vm_compute. reflexivity.
  - apply Hex; simpl; lia.
Defined.
End MoreExamples.
